(** * MOOSE (moosez): chunked prediction, routine planning and label merging

    A shallow embedding of
      - [src/moosez/predict.py]: [reconstruct_array_from_chunks],
        [predict_from_array_by_iterator], [construct_prediction_routine];
      - [src/moosez/utility/combine_multi_model_labels.py]:
        [create_multi_model_label_segmentation].

    Python exceptions are values of [exception]; a function that may raise
    returns a [result].  Dictionaries are [gmap]s, lists are lists. *)

From stdpp Require Import gmap strings list fin_maps.
From Stdlib Require Import NArith ZArith Lia.

(** ** Exceptions and results *)

Inductive exception : Type :=
  | IndexError          (* indexing or unpacking out of range *)
  | KeyError            (* dictionary lookup of a missing key *)
  | ValueError          (* numpy: shapes that cannot be broadcast;
                           the chunking library: an extent it rejects *)
  | ZeroDivisionError
  | RuntimeError        (* SimpleITK: the file cannot be read as an image *)
  | FileNotFoundError.

Inductive result (A : Type) : Type :=
  | Ok (a : A)
  | Raise (e : exception).
Arguments Ok {A} a.
Arguments Raise {A} e.

Global Instance result_ret : MRet result := λ A a, Ok a.
Global Instance result_bind : MBind result := λ A B k r,
  match r with
  | Ok a => k a
  | Raise e => Raise e
  end.

(** [xs[0]] *)
Definition index0 {A : Type} (xs : list A) : result A :=
  match xs with
  | x :: _ => Ok x
  | [] => Raise IndexError
  end.

(** ** predict.py: [construct_prediction_routine] *)

(** The argument is [str | list[str]]. *)
Inductive models_arg : Type :=
  | Str (model : string)
  | Lst (models : list string).

Section PredictionRoutine.
(** A voxel-spacing tuple; tuples are compared by value. *)
Context {spacing : Type} `{Countable spacing}.

(** [moosez.resources] is not part of the sources: the registry is a
    parameter.  [AVAILABLE_MODELS] is what [model in AVAILABLE_MODELS] tests,
    [MODELS] gives [tuple(MODELS[model]["voxel_spacing"])]. *)
Variable AVAILABLE_MODELS : list string.
Variable MODELS : gmap string spacing.

(** The body of the [for model in models] loop, on the dictionary built so
    far. *)
Fixpoint prediction_routine_loop (models : list string)
    (prediction_routine : gmap spacing (list string))
    : result (gmap spacing (list string)) :=
  match models with
  | [] => Ok prediction_routine
  | model :: models =>
      if bool_decide (model ∈ AVAILABLE_MODELS) then
        match (MODELS !! model : option spacing) with
        | None => Raise KeyError
        | Some model_spacing =>
            match prediction_routine !! model_spacing with
            | Some group =>
                prediction_routine_loop models
                  (<[model_spacing := group ++ [model]]> prediction_routine)
            | None =>
                prediction_routine_loop models
                  (<[model_spacing := [model]]> prediction_routine)
            end
        end
      else prediction_routine_loop models prediction_routine
  end.

(** [if isinstance(models, str): models = [models]] *)
Definition requested (models : models_arg) : list string :=
  match models with
  | Str model => [model]
  | Lst models => models
  end.

Definition construct_prediction_routine (models : models_arg)
    : result (gmap spacing (list string)) :=
  prediction_routine_loop (requested models) ∅.

(** The identifiers of the group keyed by [k] (none when [k] is no key). *)
Definition group_of (routine : gmap spacing (list string)) (k : spacing)
    : list string :=
  default [] (routine !! k).

(** How often [model] occurs in a list of identifiers. *)
Definition occurrences (model : string) (l : list string) : nat :=
  length (filter (λ x, x = model) l).

(** The registry knows the spacing of every available model. *)
Definition registry_consistent : Prop :=
  ∀ model, model ∈ AVAILABLE_MODELS → is_Some (MODELS !! model).

(** [model] is in the registry with required spacing [k]. *)
Definition registered_with (model : string) (k : spacing) : Prop :=
  model ∈ AVAILABLE_MODELS ∧ MODELS !! model = Some k.

Global Instance registered_with_dec model k : Decision (registered_with model k).
Proof. unfold registered_with. apply _. Defined.
End PredictionRoutine.

(** ** utility/combine_multi_model_labels.py *)

(** A label image (what [SimpleITK.ReadImage] returns for a segmentation):
    its voxel labels in storage order.  Labels are unsigned; 0 is background. *)
Abbreviation label_image := (list N).
(** An organ-index map: label index to organ name. *)
Abbreviation organ_map := (gmap N string).

(** What a path of the file system holds. *)
Inductive file : Type :=
  | ImageFile (image : label_image)         (* a NIfTI volume *)
  | JsonFile (content : organ_map)          (* [json.dump] of an index map *)
  | OtherFile.

(** The file system: full path to content. *)
Abbreviation filesystem := (gmap string file).

(** What the code reads of a [models.Model] object. *)
Record model : Type := mk_model {
  multilabel_prefix : string;
  organ_indices : organ_map;
}.

(** [str.startswith] and [str.endswith]. *)
Definition startswith (s p : string) : bool := String.prefix p s.

Definition endswith (s suffix : string) : bool :=
  let n := String.length s in
  let m := String.length suffix in
  bool_decide (m ≤ n) && String.eqb (String.substring (n - m) m s) suffix.

(** [os.path.join(a, b)] (posixpath). *)
Definition path_join (a b : string) : string :=
  if startswith b "/" then b
  else if String.eqb a "" || endswith a "/" then String.append a b
  else String.append a (String.append "/" b).

(** The name of [path] relative to [directory], when [path] lies directly in
    it. *)
Definition name_in (directory path : string) : option string :=
  let base := path_join directory "" in
  if startswith path base then
    let name :=
      String.substring (String.length base)
        (String.length path - String.length base) path in
    if String.eqb name "" || bool_decide (is_Some (String.index 0 "/" name))
    then None else Some name
  else None.

(** Modelled from the spec: [file_utilities.get_files] is not part of the
    sources.  The registry gives "a label prefix used to locate per-model
    segmentation files on disk" and the merge looks these files up in the
    segmentation directory by that prefix and the suffixes [.nii], [.nii.gz]:
    the result is the list of the paths of the files of [directory] whose
    name starts with [prefix] and ends with one of [suffixes]. *)
Definition get_files (fs : filesystem) (directory prefix : string)
    (suffixes : list string) : list string :=
  filter (λ path,
            match name_in directory path with
            | Some name =>
                startswith name prefix && existsb (endswith name) suffixes
            | None => false
            end = true)
         (map fst (map_to_list fs)).

(** [SimpleITK.ReadImage(path)] *)
Definition ReadImage (fs : filesystem) (path : string) : result label_image :=
  match fs !! path with
  | Some (ImageFile image) => Ok image
  | _ => Raise RuntimeError
  end.

(** The label indices of an organ map. *)
Definition indices (m : organ_map) : list N := (map_to_list m).*1.

(** The largest index of an organ map (0 for the empty map). *)
Definition max_index (m : organ_map) : N := foldr N.max 0%N (indices m).

(** The index an overlay label is moved to. *)
Definition remap_label (offset label : N) : N := (offset + label)%N.

(** One voxel of the merge step. *)
Definition merge_voxel (offset base new : N) : N :=
  if (base =? 0)%N then
    if (new =? 0)%N then 0%N else remap_label offset new
  else base.

(** Modelled from the spec: [image_processing.add_model_label_image] is not
    part of the sources.  Per voxel, "the merged label equals the current
    accumulator's label if it is nonzero; otherwise it equals the overlay's
    label remapped to a new index guaranteed not to collide with any index
    already present in the accumulator's map"; "the merged map contains every
    accumulator entry unchanged, plus every overlay entry under its (possibly
    remapped) index".  The new index is the overlay index shifted by the
    largest index of the accumulator's map, which sends map [{1: "lung"}] over
    [{1: "liver"}] to [{1: "liver", 2: "lung"}] as in the spec's scenario;
    background (0) stays background. *)
Definition add_model_label_image
    (base_image : label_image) (base_dict : organ_map)
    (new_image : label_image) (new_dict : organ_map)
    : label_image * organ_map :=
  let offset := max_index base_dict in
  (zip_with (merge_voxel offset) base_image new_image,
   base_dict ∪ kmap (remap_label offset) new_dict).

Definition nifti_suffixes : list string := [".nii"; ".nii.gz"]%string.

Section CombineLabels.
(** [models.Model(model_identifier, output_manager)]: the class is not part
    of the sources; constructing a model either raises or gives an object
    with a [multilabel_prefix] and its [organ_indices]. *)
Variable Model : string → result model.

(** The [for prepared_model in prepared_models[1:]] loop. *)
Fixpoint combine_loop (fs : filesystem) (segmentation_directory : string)
    (prepared_models : list model)
    (combined : label_image * organ_map)
    : result (label_image * organ_map) :=
  match prepared_models with
  | [] => Ok combined
  | prepared_model :: prepared_models =>
      new_segmentation_file_path ←
        index0 (get_files fs segmentation_directory
                  (multilabel_prefix prepared_model) nifti_suffixes);
      new_segmentation_image ← ReadImage fs new_segmentation_file_path;
      combine_loop fs segmentation_directory prepared_models
        (add_model_label_image combined.1 combined.2
           new_segmentation_image (organ_indices prepared_model))
  end.

(** The function returns the combined image and dictionary; the file system
    after the two writes is returned with them. *)
Definition create_multi_model_label_segmentation (fs : filesystem)
    (segmentation_directory : string) (model_identifiers : list string)
    : result (filesystem * (label_image * organ_map)) :=
  prepared_models ← mapM Model model_identifiers;
  base_model ← index0 prepared_models;
  base_segmentation_file_path ←
    index0 (get_files fs segmentation_directory
              (multilabel_prefix base_model) nifti_suffixes);
  combined_segmentation_image ← ReadImage fs base_segmentation_file_path;
  combined ← combine_loop fs segmentation_directory (tail prepared_models)
               (combined_segmentation_image, organ_indices base_model);
  let combined_segmentation_file :=
    path_join segmentation_directory "combined_segmentations.nii.gz" in
  let fs := <[combined_segmentation_file := ImageFile combined.1]> fs in
  let combined_segmentation_json_file :=
    path_join segmentation_directory "combined_segmentations.json" in
  let fs := <[combined_segmentation_json_file := JsonFile combined.2]> fs in
  Ok (fs, combined).
End CombineLabels.

(** ** numpy arrays *)

(** An n-dimensional array: its shape and the item at each index (one
    component per axis; only indices within the shape are meaningful). *)
Record ndarray (A : Type) : Type := mk_ndarray {
  shape : list nat;
  item : list nat → A;
}.
Arguments mk_ndarray {A} shape item.
Arguments shape {A} _.
Arguments item {A} _ _.

(** [start:stop] with non-negative bounds. *)
Record slice : Type := mk_slice { start : nat; stop : nat }.

Definition in_bounds (shape idx : list nat) : Prop :=
  Forall2 (λ i n, i < n) idx shape.

(** A rectangular region of an array: offset and length along each axis. *)
Definition in_region (region : list (nat * nat)) (idx : list nat) : Prop :=
  Forall2 (λ i r, r.1 ≤ i < r.1 + r.2) idx region.

Global Instance in_bounds_dec shape idx : Decision (in_bounds shape idx).
Proof. unfold in_bounds. apply _. Defined.

Global Instance in_region_dec region idx : Decision (in_region region idx).
Proof. unfold in_region. apply _. Defined.

(** [np.ndindex] over the shape: every index, the last axis varying fastest. *)
Fixpoint ndindex (shape : list nat) : list (list nat) :=
  match shape with
  | [] => [[]]
  | n :: shape => i ← seq 0 n; (i ::.) <$> ndindex shape
  end.

Section Arrays.
Context {A : Type}.

(** Two arrays are equal when they have one shape and the same items. *)
Definition array_eq (a b : ndarray A) : Prop :=
  shape a = shape b ∧ ∀ idx, in_bounds (shape a) idx → item a idx = item b idx.

(** [a.ravel().tolist()] *)
Definition ravel (a : ndarray A) : list A := item a <$> ndindex (shape a).

(** [np.empty(shape)] allocates without initialising: the items are whatever
    the allocated [memory] holds. *)
Definition np_empty (memory : list nat → A) (shape : list nat) : ndarray A :=
  mk_ndarray shape memory.

(** [a[None, ...]] *)
Definition expand_dims0 (a : ndarray A) : ndarray A :=
  mk_ndarray (1 :: shape a) (λ idx, item a (tail idx)).

(** [a[0]] for an array whose leading axis is not empty. *)
Definition drop_axis0 (a : ndarray A) : ndarray A :=
  mk_ndarray (tail (shape a)) (λ idx, item a (0 :: idx)).

(** The index of the squeezed array's item [idx] in the array of [shape]. *)
Fixpoint unsqueeze_index (shape idx : list nat) : list nat :=
  match shape with
  | [] => []
  | n :: shape =>
      if decide (n = 1) then 0 :: unsqueeze_index shape idx
      else match idx with
           | i :: idx => i :: unsqueeze_index shape idx
           | [] => []
           end
  end.

(** [np.squeeze(a)]: every axis of length one is removed. *)
Definition np_squeeze (a : ndarray A) : ndarray A :=
  mk_ndarray (filter (λ n, n ≠ 1) (shape a))
             (λ idx, item a (unsqueeze_index (shape a) idx)).

(** The part of an axis of length [n] that a slice selects. *)
Definition slice_region (s : slice) (n : nat) : nat * nat :=
  (start s `min` n, (stop s `min` n) - (start s `min` n)).

(** The region [a[slices]] selects in an array of [shape]; axes without a
    slice are taken whole. *)
Fixpoint slices_region (slices : list slice) (shape : list nat)
    : list (nat * nat) :=
  match shape with
  | [] => []
  | n :: shape =>
      match slices with
      | [] => (0, n) :: slices_region [] shape
      | s :: slices => slice_region s n :: slices_region slices shape
      end
  end.

(** numpy's assignment broadcasts the value to the selected region: extra
    leading axes of the value must have length one, and each other axis
    has the length of the region's axis or length one. *)
Definition broadcastable (value_shape target : list nat) : bool :=
  let nv := length value_shape in
  let nt := length target in
  forallb (λ v, bool_decide (v = 1)) (take (nv - nt) value_shape)
  && bool_decide (Forall2 (λ v t, v = t ∨ v = 1)
                    (drop (nv - nt) value_shape) (drop (nt - nv) target)).

(** The value's index that is written to the region's relative index
    [rel]. *)
Definition broadcast_index (value_shape : list nat) (rel : list nat)
    : list nat :=
  let nv := length value_shape in
  let nt := length rel in
  replicate (nv - nt) 0
  ++ zip_with (λ v i, if decide (v = 1) then 0 else i)
       (drop (nv - nt) value_shape) (drop (nt - nv) rel).

(** [a[slices] = value], for a tuple of slices. *)
Definition setitem (a : ndarray A) (slices : list slice) (value : ndarray A)
    : result (ndarray A) :=
  if decide (length (shape a) < length slices) then Raise IndexError
  else
    let region := slices_region slices (shape a) in
    if broadcastable (shape value) region.*2 then
      Ok (mk_ndarray (shape a)
            (λ idx,
               if decide (in_region region idx)
               then item value
                      (broadcast_index (shape value)
                         (zip_with (λ i r, i - r.1) idx region))
               else item a idx))
    else Raise ValueError.

(** ** predict.py: [reconstruct_array_from_chunks] *)

(** [tuple(slice(pos * csize, pos * csize + csize) for pos, csize in
    zip(position, chunk.shape))] *)
Definition chunk_slices (position chunk_shape : list nat) : list slice :=
  (λ pc, mk_slice (pc.1 * pc.2) (pc.1 * pc.2 + pc.2)) <$> zip position chunk_shape.

(** The [for chunk, position in zip(chunks, chunk_positions)] loop. *)
Fixpoint reconstruct_loop (pairs : list (ndarray A * list nat))
    (reconstructed_array : ndarray A) : result (ndarray A) :=
  match pairs with
  | [] => Ok reconstructed_array
  | (chunk, position) :: pairs =>
      let chunk := expand_dims0 chunk in
      let slices := chunk_slices position (shape chunk) in
      reconstructed_array ← setitem reconstructed_array slices chunk;
      reconstruct_loop pairs reconstructed_array
  end.

(** [memory] is what the uninitialised allocation happens to hold.  The
    dtype is that of [chunks[0]], which must exist; all arrays here have one
    item type. *)
Definition reconstruct_array_from_chunks (memory : list nat → A)
    (chunks : list (ndarray A)) (chunk_positions : list (list nat))
    (original_shape : list nat) : result (ndarray A) :=
  _ ← index0 chunks;
  let reconstructed_array := np_empty memory original_shape in
  reconstructed_array ←
    reconstruct_loop (zip chunks chunk_positions) reconstructed_array;
  Ok (np_squeeze reconstructed_array).
End Arrays.

(** ** predict.py: [predict_from_array_by_iterator] *)

(** The float [axis / count] as the chunking library reads it: its integer
    part, and whether it is an integer.  (Array axes are far below the range
    where the float quotient and the exact quotient differ in either.) *)
Record extent : Type := mk_extent { whole : nat; integral : bool }.

(** The grid-chunking primitive ([dask.array.from_array]) is a library.  Per
    axis of length [d] it is given the extent [axis / count].  An extent that
    is not an integer is either rejected ([strict]) or truncated, depending on
    the library; the integer extent [bd] cuts the axis into [d // bd] blocks
    of size [bd] followed by one block with the remainder [d % bd] when that
    is not zero (an axis of length 0 is one empty block). *)
Definition blockdims (strict : bool) (d : nat) (e : extent) : result (list nat) :=
  if strict && negb (integral e) then Raise ValueError
  else
    let bd := whole e in
    if decide (d = 0) then Ok [0]
    else if decide (bd = 0) then Raise ZeroDivisionError
    else Ok (replicate (d / bd) bd
             ++ (if decide (d mod bd = 0) then [] else [d mod bd])).

Section Predict.
Context {A B : Type}.

(** How the chunking library treats an extent that is not an integer. *)
Variable strict : bool.

(** [image_processing.ImageResampler.chunk_along_axis] is not part of the
    sources: the chunk count of an axis is a parameter. *)
Variable chunk_along_axis : nat → nat.

(** Preprocessing and [predictor.predict_from_data_iterator]: the inference
    engine maps the sequence of image blocks to one segmentation each, in
    the order submitted. *)
Variable engine : list (ndarray A) → list (ndarray B).

(** [axis / chunk_along_axis(axis)], as the chunking primitive reads it. *)
Definition chunk_extent (axis : nat) : result extent :=
  let count := chunk_along_axis axis in
  if decide (count = 0) then Raise ZeroDivisionError
  else Ok (mk_extent (axis / count) (bool_decide (axis mod count = 0))).

(** The block of [image_array] at grid coordinate [location]. *)
Definition block (image_array : ndarray A) (block_sizes : list (list nat))
    (location : list nat) : ndarray A :=
  let offsets := zip_with (λ sizes c, sum_list (take c sizes)) block_sizes location in
  mk_ndarray (zip_with (λ sizes c, sizes !!! c) block_sizes location)
             (λ idx, item image_array (zip_with Nat.add offsets idx)).

(** The blocks handed to the engine, their grid coordinates (in the order
    of [np.ndindex]) and the shape of the chunked array. *)
Definition chunk_grid (image_array : ndarray A)
    : result (list (ndarray A) * list (list nat) * list nat) :=
  let image_array := expand_dims0 image_array in
  chunks ← mapM chunk_extent (shape image_array);
  block_sizes ←
    mapM (λ db, blockdims strict db.1 db.2) (zip (shape image_array) chunks);
  let chunk_locations := ndindex (length <$> block_sizes) in
  Ok (block image_array block_sizes <$> chunk_locations,
      chunk_locations, shape image_array).

(** [model_name] and [accelerator] only select the engine; [memory] is what
    the allocation of the output holds. *)
Definition predict_from_array_by_iterator (memory : list nat → B)
    (image_array : ndarray A) : result (ndarray B) :=
  '(blocks, chunk_locations, prediction_shape) ← chunk_grid image_array;
  let segmentations := engine blocks in
  reconstruct_array_from_chunks memory segmentations chunk_locations
    prediction_shape.
End Predict.

(** The engine of the round trip: each block comes back unchanged, over its
    spatial axes (the engine's segmentations have no batch axis). *)
Definition identity_engine {A : Type} (blocks : list (ndarray A))
    : list (ndarray A) :=
  drop_axis0 <$> blocks.

(** [reconstruct(partition(V))] *)
Definition round_trip {A : Type} (strict : bool) (chunk_along_axis : nat → nat)
    (memory : list nat → A) (V : ndarray A) : result (ndarray A) :=
  predict_from_array_by_iterator strict chunk_along_axis identity_engine memory V.

(** An array given by its shape and its items in the order of [ravel]. *)
Definition array_of_list {A : Type} `{Inhabited A} (shape : list nat)
    (items : list A) : ndarray A :=
  mk_ndarray shape
    (λ idx, default inhabitant
              (i ← list_find (λ j, j = idx) (ndindex shape); items !! i.1)).

Definition result_map {A B : Type} (f : A → B) (r : result A) : result B :=
  match r with
  | Ok a => Ok (f a)
  | Raise e => Raise e
  end.


(** ** image_conversion.py *)

(** The worker count that [standardize_to_nifti] computes from
    [mp.cpu_count()]. *)
Definition max_workers (cpu_count : nat) : nat :=
  let max_workers := if decide (4 < cpu_count) then cpu_count / 4 else 1 in
  if decide (max_workers ≤ 32) then max_workers else 32.

(** The characters [/] and [.]. *)
Definition sep_char : Ascii.ascii :=
  match "/"%string with String c _ => c | EmptyString => Ascii.zero end.

Definition dot_char : Ascii.ascii :=
  match "."%string with String c _ => c | EmptyString => Ascii.zero end.

(** Whether a string holds the path separator. *)
Fixpoint contains_sep (s : string) : bool :=
  match s with
  | EmptyString => false
  | String c rest => Ascii.eqb c sep_char || contains_sep rest
  end.

(** [os.path.basename(p)]: what follows the last separator. *)
Fixpoint basename (p : string) : string :=
  match p with
  | EmptyString => EmptyString
  | String c rest =>
      if contains_sep rest then basename rest
      else if Ascii.eqb c sep_char then rest else p
  end.

(** [p[:p.rfind('/') + 1]]: up to and with the last separator. *)
Fixpoint dirname_head (p : string) : string :=
  match p with
  | EmptyString => EmptyString
  | String c rest =>
      if contains_sep rest then String c (dirname_head rest)
      else if Ascii.eqb c sep_char then String c EmptyString else EmptyString
  end.

(** [s.rstrip('/')] *)
Fixpoint rstrip_sep (s : string) : string :=
  match s with
  | EmptyString => EmptyString
  | String c rest =>
      match rstrip_sep rest with
      | EmptyString => if Ascii.eqb c sep_char then EmptyString else String c EmptyString
      | stripped => String c stripped
      end
  end.

(** [os.path.dirname(p)] *)
Definition dirname (p : string) : string :=
  let head := dirname_head p in
  match rstrip_sep head with
  | EmptyString => head          (* empty, or separators only *)
  | stripped => stripped
  end.

(** [l.rfind(c)]: the index of the last occurrence. *)
Definition rfind (c : Ascii.ascii) (l : list Ascii.ascii) : option nat :=
  (λ found, length l - S found.1) <$> list_find (λ x, x = c) (reverse l).

(** [os.path.splitext(p)]: the extension starts at the last dot, when that
    dot follows the last separator and something other than dots stands
    between the two. *)
Definition splitext (p : string) : string * string :=
  let l := String.list_ascii_of_string p in
  match rfind dot_char l with
  | None => (p, EmptyString)
  | Some dotIndex =>
      let filenameIndex :=
        match rfind sep_char l with Some sepIndex => S sepIndex | None => 0 end in
      if decide (filenameIndex ≤ dotIndex) then
        if forallb (λ x, Ascii.eqb x dot_char)
             (take (dotIndex - filenameIndex) (drop filenameIndex l))
        then (p, EmptyString)
        else (String.string_of_list_ascii (take dotIndex l),
              String.string_of_list_ascii (drop dotIndex l))
      else (p, EmptyString)
  end.

(** [sub in s] *)
Definition contains (s sub : string) : bool :=
  bool_decide (is_Some (String.index 0 sub s)).

(** A file system with directories: what a path holds. *)
Inductive entry : Type :=
  | Directory
  | File (f : file).

Abbreviation tree := (gmap string entry).

(** [os.path.exists], [os.path.isdir], [os.path.isfile] *)
Definition path_exists (t : tree) (path : string) : bool :=
  bool_decide (is_Some (t !! path)).

Definition isdir (t : tree) (path : string) : bool :=
  match t !! path with
  | Some Directory => true
  | _ => false
  end.

Definition isfile (t : tree) (path : string) : bool :=
  match t !! path with
  | Some (File _) => true
  | _ => false
  end.

(** [os.listdir(directory)] for a directory: the names directly in it. *)
Definition listdir (t : tree) (directory : string) : list string :=
  omap (name_in directory) (map fst (map_to_list t)).

(** [SimpleITK.ReadImage] and [SimpleITK.WriteImage] on this file system: a
    file is read as an image whatever its name when its content is one. *)
Definition ReadImage_file (t : tree) (path : string) : result label_image :=
  match t !! path with
  | Some (File (ImageFile image)) => Ok image
  | _ => Raise RuntimeError
  end.

Definition WriteImage_file (t : tree) (image : label_image) (path : string)
    : tree :=
  <[path := File (ImageFile image)]> t.

Section ImageConversion.
(** [dicom_to_nifti(input_directory, output_directory)]: the conversion of a
    DICOM series is the work of pydicom, dicom2nifti and dcm2niix; here it
    is what the call leaves of the file system, or the exception it raises.
    Its return value is not used by the callers below. *)
Variable dicom_to_nifti : tree → string → string → result tree.

Definition non_nifti_to_nifti (t : tree) (input_path : string)
    (output_directory : option string) : result tree :=
  if negb (path_exists t input_path) then Ok t
  else
    let output_directory := default (dirname input_path) output_directory in
    if isdir t input_path then dicom_to_nifti t input_path output_directory
    else if isfile t input_path then
      let filename := basename input_path in
      if startswith filename "."
         || existsb (endswith filename) [".nii.gz"; ".nii"]%string
      then Ok t
      else
        output_image ← ReadImage_file t input_path;
        let output_image_basename :=
          (splitext filename).1 +:+ ".nii" in
        let output_image_path :=
          path_join output_directory output_image_basename in
        Ok (WriteImage_file t output_image output_image_path)
    else Ok t.

(** The [for image in images] loop of [standardize_subject]. *)
Fixpoint standardize_images (t : tree) (subject_path : string)
    (images : list string) : result tree :=
  match images with
  | [] => Ok t
  | image :: images =>
      let image_path := path_join subject_path image in
      let path_is_valid := isdir t image_path || isfile t image_path in
      let path_is_valid :=
        path_is_valid && negb (contains (basename image_path) "moosez") in
      if path_is_valid then
        t ← non_nifti_to_nifti t image_path None;
        standardize_images t subject_path images
      else standardize_images t subject_path images
  end.

Definition standardize_subject (t : tree) (parent_dir subject : string)
    : result tree :=
  let subject_path := path_join parent_dir subject in
  if negb (isdir t subject_path) then Ok t
  else standardize_images t subject_path (listdir t subject_path).
End ImageConversion.
(** ** Example inputs *)

(** A registry of two models whose maps both use index 1. *)
Definition example_Model (model_identifier : string) : result model :=
  if decide (model_identifier = "clin_ct_organs") then
    Ok (mk_model "CT_Organs_" {[1%N := "liver"]})
  else if decide (model_identifier = "clin_ct_lungs") then
    Ok (mk_model "CT_Lungs_" {[1%N := "lung"]})
  else Raise KeyError.

Definition example_directory : string := "/out/segmentations".

Definition example_ids : list string := ["clin_ct_organs"; "clin_ct_lungs"].

(** Three voxels: both models label the first, only the second model labels
    the second, neither labels the third. *)
Definition example_fs : filesystem :=
  {[ "/out/segmentations/CT_Organs_patient.nii.gz" := ImageFile [1; 0; 0]%N;
     "/out/segmentations/CT_Lungs_patient.nii.gz" := ImageFile [1; 1; 0]%N ]}.

(** The same directory without the segmentation of the second model. *)
Definition example_fs_missing : filesystem :=
  {[ "/out/segmentations/CT_Organs_patient.nii.gz" := ImageFile [1; 0; 0]%N ]}.

(** Spacings in tenths of a millimetre. *)
Definition example_AVAILABLE_MODELS : list string :=
  ["clin_ct_organs"; "clin_ct_lungs"; "clin_pt_fdg_tumor"].

Definition example_MODELS : gmap string (list Z) :=
  {[ "clin_ct_organs" := [15; 15; 15]%Z;
     "clin_ct_lungs" := [15; 15; 15]%Z;
     "clin_pt_fdg_tumor" := [30; 30; 30]%Z ]}.

(** All chunks along an axis except possibly the last have one size. *)
Definition uniform_except_last (sizes : list nat) : bool :=
  match sizes with
  | [] => true
  | s :: _ => forallb (Nat.eqb s) (removelast sizes)
  end.

(** Three chunks of sizes 3, 1 and 1 for an axis of length 5. *)
Definition irregular_chunks : list (ndarray Z) :=
  [array_of_list [3] [10; 11; 12]%Z; array_of_list [1] [13]%Z;
   array_of_list [1] [14]%Z].

Definition irregular_positions : list (list nat) := [[0; 0]; [0; 1]; [0; 2]].

(** One chunk of two items for an output of three. *)
Definition short_chunks : list (ndarray Z) := [array_of_list [2] [7; 8]%Z].

(** A chunk over the whole of a volume with an interior axis of length 1. *)
Definition slab_chunks : list (ndarray Z) :=
  [array_of_list [2; 1; 3] [1; 2; 3; 4; 5; 6]%Z].

(** A volume of five voxels, and two chunks requested for an axis of 5. *)
Definition volume5 : ndarray Z := array_of_list [5] [1; 2; 3; 4; 5]%Z.

Definition two_chunks_for_5 (axis : nat) : nat :=
  if decide (axis = 5) then 2 else 1.

(** A volume of 4 by 6 voxels, cut in 2 by 3 blocks. *)
Definition volume46 : ndarray Z := array_of_list [4; 6] (Z.of_nat <$> seq 0 24).

Definition chunks_for_46 (axis : nat) : nat :=
  if decide (axis = 4) then 2 else if decide (axis = 6) then 3 else 1.

(** ** Chunk counts *)

(** A chunk count an axis can be cut into. *)
Definition valid_chunk_count (chunk_along_axis : nat → nat) (axis : nat) : Prop :=
  0 < chunk_along_axis axis ≤ axis.

(** The chunk count divides the axis length evenly. *)
Definition divides_evenly (chunk_along_axis : nat → nat) (axis : nat) : Prop :=
  0 < chunk_along_axis axis ∧ axis mod chunk_along_axis axis = 0.

(** * Properties *)

(** ** The prediction routine *)

Section PredictionRoutineFacts.
Context {spacing : Type} `{Countable spacing}.
Variable AVAILABLE_MODELS : list string.
Variable MODELS : gmap string spacing.

Local Abbreviation loop := (prediction_routine_loop AVAILABLE_MODELS MODELS).
Local Abbreviation registered := (registered_with AVAILABLE_MODELS MODELS).

Local Ltac decide_cases :=
  repeat destruct (decide _); destruct_and?; simplify_eq;
  first [lia | tauto | intuition congruence].

Lemma occurrences_app model (l1 l2 : list string) :
  occurrences model (l1 ++ l2) = occurrences model l1 + occurrences model l2.
Proof. unfold occurrences. by rewrite filter_app, length_app. Qed.

Lemma occurrences_cons model x (l : list string) :
  occurrences model (x :: l)
  = (if decide (x = model) then 1 else 0) + occurrences model l.
Proof.
  unfold occurrences. rewrite filter_cons. by destruct (decide (x = model)).
Qed.

Lemma occurrences_elem_of model (l : list string) :
  model ∈ l ↔ 0 < occurrences model l.
Proof.
  induction l as [|x l IH].
  - unfold occurrences; simpl. split; [by intros ?%elem_of_nil|lia].
  - rewrite occurrences_cons, elem_of_cons.
    destruct (decide (x = model)) as [->|]; [split; [lia|by left]|].
    rewrite IH. split; [intros [?|?]; [congruence|lia]|intros; right; lia].
Qed.

Lemma occurrences_NoDup (l : list string) :
  NoDup l ↔ ∀ model, occurrences model l ≤ 1.
Proof.
  induction l as [|x l IH].
  - split; [|constructor]. intros _ model. unfold occurrences; simpl; lia.
  - rewrite NoDup_cons, IH, occurrences_elem_of. split.
    + intros [Hx Hl] model. rewrite occurrences_cons. specialize (Hl model).
      destruct (decide (x = model)) as [->|]; lia.
    + intros Hocc. split.
      * specialize (Hocc x). rewrite occurrences_cons in Hocc.
        destruct (decide (x = x)); [lia|done].
      * intros model. specialize (Hocc model).
        rewrite occurrences_cons in Hocc. lia.
Qed.

(** What one run of the loop adds to each group. *)
Lemma prediction_routine_loop_occurrences models :
  registry_consistent AVAILABLE_MODELS MODELS →
  ∀ routine, ∃ routine',
    loop models routine = Ok routine' ∧
    ∀ model k,
      occurrences model (group_of routine' k)
      = occurrences model (group_of routine k)
        + (if decide (registered model k) then occurrences model models else 0).
Proof.
  intros Hreg. induction models as [|m models IH]; intros routine; simpl.
  { exists routine. split; [done|]. intros model k.
    destruct (decide _); unfold occurrences; simpl; lia. }
  destruct (bool_decide_reflect (m ∈ AVAILABLE_MODELS)) as [Hin|Hnin].
  - destruct (Hreg m Hin) as [sp Hsp]. rewrite Hsp.
    set (routine1 := match routine !! sp with
                     | Some group => <[sp := group ++ [m]]> routine
                     | None => <[sp := [m]]> routine
                     end).
    assert (Hstep : ∀ model k,
      occurrences model (group_of routine1 k)
      = occurrences model (group_of routine k)
        + (if decide (m = model ∧ sp = k) then 1 else 0)).
    { intros model k. unfold routine1, group_of.
      destruct (routine !! sp) as [group|] eqn:Hgroup;
        (destruct (decide (sp = k)) as [->|Hne];
         [rewrite lookup_insert_eq, ?Hgroup|rewrite lookup_insert_ne by done]);
        simpl; rewrite ?occurrences_app, ?occurrences_cons;
        unfold occurrences; simpl; decide_cases. }
    destruct (IH routine1) as (routine' & Hrun & Hocc).
    exists routine'. split.
    { unfold routine1 in Hrun. by destruct (routine !! sp). }
    intros model k. rewrite Hocc, Hstep, occurrences_cons.
    unfold registered_with.
    decide_cases.
  - destruct (IH routine) as (routine' & Hrun & Hocc).
    exists routine'. split; [done|].
    intros model k. rewrite Hocc, occurrences_cons. unfold registered_with.
    decide_cases.
Qed.

(** C2 (as amended): for a registry that knows the spacing of each
    available model, the routine is built without error; an identifier of
    the registry occurs only in the group keyed by its spacing, there as
    often as it was requested, and an identifier absent from the registry
    occurs in no group.  In particular no identifier is repeated when the
    requested identifiers are pairwise distinct. *)
Theorem construct_prediction_routine_groups (models : models_arg) :
  registry_consistent AVAILABLE_MODELS MODELS →
  ∃ routine,
    construct_prediction_routine AVAILABLE_MODELS MODELS models = Ok routine ∧
    (∀ model k,
       occurrences model (group_of routine k)
       = if decide (registered model k)
         then occurrences model (requested models) else 0) ∧
    (NoDup (requested models) → ∀ k, NoDup (group_of routine k)).
Proof.
  intros Hreg. unfold construct_prediction_routine.
  destruct (prediction_routine_loop_occurrences (requested models) Hreg ∅)
    as (routine & Hrun & Hocc).
  exists routine. split; [done|].
  assert (Hgroups : ∀ model k,
    occurrences model (group_of routine k)
    = if decide (registered model k)
      then occurrences model (requested models) else 0).
  { intros model k. rewrite Hocc.
    replace (group_of ∅ k) with (@nil string)
      by (unfold group_of; by rewrite lookup_empty).
    done. }
  split; [done|].
  intros Hnodup k. apply occurrences_NoDup. intros model.
  rewrite Hgroups. destruct (decide _); [|lia].
  by apply occurrences_NoDup.
Qed.

(** C9: a single identifier is treated as the one-element list holding
    it. *)
Theorem construct_prediction_routine_str (s : string) :
  construct_prediction_routine AVAILABLE_MODELS MODELS (Str s)
  = construct_prediction_routine AVAILABLE_MODELS MODELS (Lst [s]).
Proof. reflexivity. Qed.
End PredictionRoutineFacts.

(** ** Results of the error monad *)

Lemma bind_Ok {A B : Type} (r : result A) (k : A → result B) (b : B) :
  r ≫= k = Ok b ↔ ∃ a, r = Ok a ∧ k a = Ok b.
Proof.
  destruct r as [a|e]; simpl; split.
  - intros Hk. by exists a.
  - by intros (a' & [= ->] & Hk).
  - done.
  - by intros (a' & [=] & _).
Qed.

Lemma mapM_Ok {A B : Type} (f : A → result B) (l : list A) (k : list B) :
  mapM f l = Ok k ↔ Forall2 (λ x y, f x = Ok y) l k.
Proof.
  revert k. induction l as [|x l IH]; intros k; simpl.
  - split; [intros [= <-]; constructor|by intros ->%Forall2_nil_inv_l].
  - split.
    + intros (y & Hy & (k' & Hk' & [= <-])%bind_Ok)%bind_Ok.
      constructor; [done|by apply IH].
    + intros (y & k' & Hy & Hk' & ->)%Forall2_cons_inv_l.
      apply bind_Ok. exists y. split; [done|].
      apply bind_Ok. exists k'. split; [by apply IH|done].
Qed.

Lemma index0_Ok {A : Type} (l : list A) (x : A) :
  index0 l = Ok x ↔ ∃ l', l = x :: l'.
Proof.
  destruct l as [|y l]; simpl; split.
  - done.
  - by intros (l' & [=]).
  - intros [= ->]. by exists l.
  - by intros (l' & [= -> _]).
Qed.

(** ** The merge step *)

Global Instance remap_label_inj offset : Inj (=) (=) (remap_label offset).
Proof. intros k1 k2. unfold remap_label. lia. Qed.

Lemma elem_of_indices (m : organ_map) (k : N) :
  k ∈ indices m ↔ is_Some (m !! k).
Proof.
  unfold indices. rewrite list_elem_of_fmap. split.
  - intros ([k' x] & -> & Hin). exists x. by apply elem_of_map_to_list.
  - intros [x Hx]. exists (k, x). split; [done|]. by apply elem_of_map_to_list.
Qed.

Lemma max_index_ge (m : organ_map) (k : N) :
  is_Some (m !! k) → (k ≤ max_index m)%N.
Proof.
  rewrite <-elem_of_indices. unfold max_index.
  induction (indices m) as [|k' l IH]; simpl.
  - by intros ?%elem_of_nil.
  - intros [->|Hin%IH]%elem_of_cons; lia.
Qed.

(** A remapped nonzero label is no index of the accumulator's map. *)
Lemma remap_label_fresh (base_dict : organ_map) (label : N) :
  label ≠ 0%N → base_dict !! remap_label (max_index base_dict) label = None.
Proof.
  intros Hlabel. apply eq_None_not_Some. intros Hsome%max_index_ge.
  unfold remap_label in Hsome. lia.
Qed.

Lemma add_model_label_image_indices base_image base_dict new_image new_dict :
  new_dict !! 0%N = None →
  let merged := (add_model_label_image base_image base_dict new_image new_dict).2 in
  let remapped := remap_label (max_index base_dict) <$> indices new_dict in
  NoDup (indices base_dict ++ remapped) ∧
  indices merged ≡ₚ indices base_dict ++ remapped.
Proof.
  intros Hzero merged remapped.
  assert (Hnodup : NoDup (indices base_dict ++ remapped)).
  { apply NoDup_app. split; [apply NoDup_fst_map_to_list|]. split.
    - intros k Hbase (j & -> & Hnew)%list_elem_of_fmap.
      apply elem_of_indices in Hbase, Hnew.
      rewrite remap_label_fresh in Hbase; [by destruct Hbase|].
      intros ->. rewrite Hzero in Hnew. by destruct Hnew.
    - apply (NoDup_fmap_2 _). apply NoDup_fst_map_to_list. }
  split; [done|].
  apply NoDup_Permutation; [apply NoDup_fst_map_to_list|done|].
  intros k. unfold merged, remapped; simpl.
  rewrite elem_of_app, list_elem_of_fmap, !elem_of_indices.
  rewrite lookup_union_is_Some, lookup_kmap_is_Some by apply _.
  by setoid_rewrite elem_of_indices.
Qed.

Lemma size_indices (m : organ_map) : length (indices m) = size m.
Proof. unfold indices. by rewrite length_fmap, length_map_to_list. Qed.

Lemma add_model_label_image_size base_image base_dict new_image new_dict :
  new_dict !! 0%N = None →
  size (add_model_label_image base_image base_dict new_image new_dict).2
  = size base_dict + size new_dict.
Proof.
  intros Hzero.
  destruct (add_model_label_image_indices base_image base_dict new_image
              new_dict Hzero) as [_ Hperm].
  rewrite <-!size_indices, Hperm, length_app, length_fmap. done.
Qed.

Lemma add_model_label_image_voxel base_image base_dict new_image new_dict i a o :
  base_image !! i = Some a → new_image !! i = Some o →
  (add_model_label_image base_image base_dict new_image new_dict).1 !! i
  = Some (merge_voxel (max_index base_dict) a o).
Proof.
  intros Ha Ho. simpl. rewrite lookup_zip_with, Ha. simpl. by rewrite Ho.
Qed.

Lemma add_model_label_image_length base_image base_dict new_image new_dict :
  length new_image = length base_image →
  length (add_model_label_image base_image base_dict new_image new_dict).1
  = length base_image.
Proof. intros Hlen. simpl. rewrite length_zip_with. lia. Qed.

(** ** Paths *)

Lemma append_cons c (s1 s2 : string) : String c s1 +:+ s2 = String c (s1 +:+ s2).
Proof. reflexivity. Qed.

Lemma append_nil_r (s : string) : s +:+ "" = s.
Proof. induction s as [|c s IH]; [done|by rewrite append_cons, IH]. Qed.

Lemma append_assoc (s1 s2 s3 : string) : (s1 +:+ s2) +:+ s3 = s1 +:+ s2 +:+ s3.
Proof. induction s1 as [|c s1 IH]; [done|by rewrite !append_cons, IH]. Qed.

Lemma append_inv_head (s s1 s2 : string) : s +:+ s1 = s +:+ s2 → s1 = s2.
Proof.
  induction s as [|c s IH]; [done|]. rewrite !append_cons.
  intros [= Heq]. by apply IH.
Qed.

Lemma prefix_append (s1 s2 : string) : String.prefix s1 (s1 +:+ s2) = true.
Proof.
  induction s1 as [|c s1 IH]; [by destruct s2|].
  rewrite append_cons. simpl.
  destruct (Ascii.ascii_dec c c); [done|congruence].
Qed.

Lemma substring_all (s : string) : String.substring 0 (String.length s) s = s.
Proof. induction s as [|c s IH]; simpl; [done|by rewrite IH]. Qed.

Lemma substring_append (s1 s2 : string) :
  String.substring (String.length s1)
    (String.length (s1 +:+ s2) - String.length s1) (s1 +:+ s2) = s2.
Proof.
  induction s1 as [|c s1 IH].
  - change ("" +:+ s2) with s2. simpl. rewrite Nat.sub_0_r. apply substring_all.
  - rewrite append_cons. simpl. apply IH.
Qed.

(** A relative name is appended to the directory with its separator. *)
Lemma path_join_relative (directory name : string) :
  startswith name "/" = false →
  path_join directory name = path_join directory "" +:+ name.
Proof.
  intros Hrel. unfold path_join. rewrite Hrel. simpl.
  destruct (String.eqb directory "" || endswith directory "/").
  - by rewrite append_nil_r.
  - by rewrite append_assoc.
Qed.

Lemma path_join_inj (directory name1 name2 : string) :
  startswith name1 "/" = false → startswith name2 "/" = false →
  path_join directory name1 = path_join directory name2 → name1 = name2.
Proof.
  intros H1 H2.
  rewrite (path_join_relative _ name1), (path_join_relative _ name2) by done.
  apply append_inv_head.
Qed.

Lemma name_in_path_join (directory name : string) :
  startswith name "/" = false →
  String.eqb name "" || bool_decide (is_Some (String.index 0 "/" name)) = false →
  name_in directory (path_join directory name) = Some name.
Proof.
  intros Hrel Hname. rewrite (path_join_relative _ name) by done. unfold name_in.
  unfold startswith at 1. rewrite prefix_append, substring_append.
  by rewrite Hname.
Qed.

(** ** The merge over a list of models *)

(** Every image of the file system is on one grid of [n] voxels. *)
Definition aligned (fs : filesystem) (n : nat) : Prop :=
  ∀ path image, fs !! path = Some (ImageFile image) → length image = n.

Lemma ReadImage_Ok (fs : filesystem) path image :
  ReadImage fs path = Ok image ↔ fs !! path = Some (ImageFile image).
Proof.
  unfold ReadImage. destruct (fs !! path) as [[]|]; split; intros; simplify_eq; done.
Qed.

Lemma combine_loop_size fs directory prepared_models combined combined' :
  Forall (λ m, organ_indices m !! 0%N = None) prepared_models →
  combine_loop fs directory prepared_models combined = Ok combined' →
  size combined'.2
  = size combined.2 + sum_list ((λ m, size (organ_indices m)) <$> prepared_models).
Proof.
  intros Hzero. revert combined.
  induction Hzero as [|m models Hm _ IH]; intros combined; simpl.
  - intros [= <-]. lia.
  - intros (path & _ & (image & _ & Hloop)%bind_Ok)%bind_Ok.
    rewrite (IH _ Hloop), add_model_label_image_size by done.
    symmetry. apply Nat.add_assoc.
Qed.

Lemma combine_loop_priority fs directory n prepared_models combined combined' :
  aligned fs n → length combined.1 = n →
  combine_loop fs directory prepared_models combined = Ok combined' →
  ∀ i a, combined.1 !! i = Some a → a ≠ 0%N → combined'.1 !! i = Some a.
Proof.
  intros Hfs. revert combined.
  induction prepared_models as [|m models IH]; intros combined Hlen; simpl.
  - by intros [= <-].
  - intros (path & _ & (image & Himage%ReadImage_Ok & Hloop)%bind_Ok)%bind_Ok.
    apply Hfs in Himage. intros i a Ha Hnz.
    assert (is_Some (image !! i)) as [o Ho].
    { apply lookup_lt_is_Some. apply lookup_lt_Some in Ha. lia. }
    eapply IH; [|done| |done].
    + rewrite add_model_label_image_length; lia.
    + rewrite (add_model_label_image_voxel _ _ _ _ _ a o) by done.
      unfold merge_voxel. by destruct (N.eqb_spec a 0).
Qed.

Section CombineLabelsFacts.
Variable Model : string → result model.

(** What a successful run has done. *)
Lemma create_multi_model_label_segmentation_Ok fs directory ids fs' combined :
  create_multi_model_label_segmentation Model fs directory ids = Ok (fs', combined) →
  ∃ base_model prepared_models path base_image,
    mapM Model ids = Ok (base_model :: prepared_models) ∧
    index0 (get_files fs directory (multilabel_prefix base_model) nifti_suffixes)
    = Ok path ∧
    ReadImage fs path = Ok base_image ∧
    combine_loop fs directory prepared_models
      (base_image, organ_indices base_model) = Ok combined ∧
    fs' = <[path_join directory "combined_segmentations.json" := JsonFile combined.2]>
            (<[path_join directory "combined_segmentations.nii.gz" := ImageFile combined.1]> fs).
Proof.
  unfold create_multi_model_label_segmentation.
  intros (models & Hmodels & (base & [rest ->]%index0_Ok
          & (path & Hpath & (image & Himage & (combined0 & Hloop & Hout)%bind_Ok)
          %bind_Ok)%bind_Ok)%bind_Ok)%bind_Ok.
  simpl in Hloop. injection Hout as <- <-.
  by exists base, rest, path, image.
Qed.

(** The segmentation file of a model is found and read. *)
Definition segmentation_found (fs : filesystem) (directory : string) (m : model)
    : Prop :=
  ∃ path image,
    index0 (get_files fs directory (multilabel_prefix m) nifti_suffixes) = Ok path ∧
    ReadImage fs path = Ok image.

Lemma combine_loop_missing fs directory before missing after combined :
  Forall (segmentation_found fs directory) before →
  get_files fs directory (multilabel_prefix missing) nifti_suffixes = [] →
  combine_loop fs directory (before ++ missing :: after) combined = Raise IndexError.
Proof.
  intros Hbefore Hmissing. revert combined.
  induction Hbefore as [|m before (path & image & Hpath & Himage) _ IH];
    intros combined; simpl.
  - by rewrite Hmissing.
  - rewrite Hpath. simpl. rewrite Himage. simpl. apply IH.
Qed.

(** C3: in a merge step whose overlay map has no index 0, the merged map
    has as many entries as the two maps together; its indices are the
    accumulator's indices and the remapped overlay indices, which are
    pairwise distinct.  Over a list of models the combined map has as many
    entries as the maps of all models together.  (Organ names play no part:
    this holds for disjoint name sets in particular.) *)
Theorem merge_cardinality :
  (∀ base_image base_dict new_image new_dict,
     new_dict !! 0%N = None →
     let merged :=
       (add_model_label_image base_image base_dict new_image new_dict).2 in
     let remapped := remap_label (max_index base_dict) <$> indices new_dict in
     size merged = size base_dict + size new_dict ∧
     NoDup (indices base_dict ++ remapped) ∧
     indices merged ≡ₚ indices base_dict ++ remapped ∧
     NoDup (indices merged)) ∧
  (∀ fs directory ids fs' image dict,
     (∀ id m, Model id = Ok m → organ_indices m !! 0%N = None) →
     create_multi_model_label_segmentation Model fs directory ids
     = Ok (fs', (image, dict)) →
     ∃ prepared_models,
       mapM Model ids = Ok prepared_models ∧
       size dict = sum_list ((λ m, size (organ_indices m)) <$> prepared_models)).
Proof.
  split.
  - intros base_image base_dict new_image new_dict Hzero merged remapped.
    destruct (add_model_label_image_indices base_image base_dict new_image
                new_dict Hzero) as [Hnodup Hperm].
    split; [by apply add_model_label_image_size|].
    split; [done|]. split; [done|]. apply NoDup_fst_map_to_list.
  - intros fs directory ids fs' image dict Hzero
      (base & models & path & base_image & Hmodels & _ & _ & Hloop & _)
      %create_multi_model_label_segmentation_Ok.
    exists (base :: models). split; [done|].
    apply combine_loop_size in Hloop; [done|].
    apply mapM_Ok, Forall2_cons_inv_r in Hmodels
      as (id & ids' & _ & Hmodels & _).
    clear -Hmodels Hzero. induction Hmodels; constructor; eauto.
Qed.

(** C4: in a merge step, a voxel whose accumulator label is nonzero keeps
    that label; a voxel whose accumulator label is zero and whose overlay
    label is nonzero gets the overlay label remapped to an index that the
    accumulator's map does not have.  Over a list of models on one grid,
    every voxel that the first model labels keeps the first model's label. *)
Theorem merge_priority :
  (∀ base_image base_dict new_image new_dict i a o,
     base_image !! i = Some a → new_image !! i = Some o →
     let merged :=
       (add_model_label_image base_image base_dict new_image new_dict).1 in
     (a ≠ 0%N → merged !! i = Some a) ∧
     (a = 0%N → o ≠ 0%N →
      ∃ l, merged !! i = Some l ∧ l = remap_label (max_index base_dict) o ∧
           base_dict !! l = None)) ∧
  (∀ fs directory ids fs' image dict n,
     aligned fs n →
     create_multi_model_label_segmentation Model fs directory ids
     = Ok (fs', (image, dict)) →
     ∃ base_model prepared_models path base_image,
       mapM Model ids = Ok (base_model :: prepared_models) ∧
       index0 (get_files fs directory (multilabel_prefix base_model)
                 nifti_suffixes) = Ok path ∧
       ReadImage fs path = Ok base_image ∧
       ∀ i a, base_image !! i = Some a → a ≠ 0%N → image !! i = Some a).
Proof.
  split.
  - intros base_image base_dict new_image new_dict i a o Ha Ho merged.
    unfold merged.
    rewrite (add_model_label_image_voxel _ _ _ _ _ a o) by done.
    unfold merge_voxel. split.
    + intros Hnz. by destruct (N.eqb_spec a 0).
    + intros -> Hnz. simpl. destruct (N.eqb_spec o 0); [done|].
      eexists. split; [done|]. split; [done|]. by apply remap_label_fresh.
  - intros fs directory ids fs' image dict n Hfs
      (base & models & path & base_image & Hmodels & Hpath & Hread & Hloop & _)
      %create_multi_model_label_segmentation_Ok.
    exists base, models, path, base_image. do 3 (split; [done|]).
    intros i a Ha Hnz.
    apply (combine_loop_priority fs directory n models
             (base_image, organ_indices base) (image, dict)); try done.
    simpl. apply Hfs with path. by apply ReadImage_Ok.
Qed.

(** C7 (as amended): when the segmentation files of the models before it
    are found and read and no file matches a model's prefix, the run fails
    with the [IndexError] of indexing the empty list of matching files; no
    file-not-found error is raised. *)
Theorem missing_segmentation_file_IndexError fs directory ids before missing after :
  mapM Model ids = Ok (before ++ missing :: after) →
  Forall (segmentation_found fs directory) before →
  get_files fs directory (multilabel_prefix missing) nifti_suffixes = [] →
  create_multi_model_label_segmentation Model fs directory ids = Raise IndexError.
Proof.
  intros Hmodels Hbefore Hmissing.
  unfold create_multi_model_label_segmentation. rewrite Hmodels. simpl.
  destruct Hbefore as [|base before (path & image & Hpath & Himage) Hbefore]; simpl.
  - by rewrite Hmissing.
  - rewrite Hpath. simpl. rewrite Himage. simpl.
    by rewrite combine_loop_missing.
Qed.

(** C8: a successful merge leaves the combined volume in the file
    [combined_segmentations.nii.gz] and the combined index map in the file
    [combined_segmentations.json], both directly in the segmentation
    directory, whatever the models were; it returns what it wrote and
    touches no other path. *)
Theorem combined_segmentation_files fs directory ids fs' image dict :
  create_multi_model_label_segmentation Model fs directory ids
  = Ok (fs', (image, dict)) →
  let volume_file := path_join directory "combined_segmentations.nii.gz" in
  let index_file := path_join directory "combined_segmentations.json" in
  fs' !! volume_file = Some (ImageFile image) ∧
  fs' !! index_file = Some (JsonFile dict) ∧
  name_in directory volume_file = Some "combined_segmentations.nii.gz"%string ∧
  name_in directory index_file = Some "combined_segmentations.json"%string ∧
  ∀ path, path ≠ volume_file → path ≠ index_file → fs' !! path = fs !! path.
Proof.
  intros (base & models & path & base_image & _ & _ & _ & _ & ->)
    %create_multi_model_label_segmentation_Ok volume_file index_file.
  assert (volume_file ≠ index_file) as Hne.
  { intros Heq. by apply path_join_inj in Heq. }
  split; [|split; [|split; [|split]]].
  - rewrite lookup_insert_ne by done. by rewrite lookup_insert_eq.
  - by rewrite lookup_insert_eq.
  - by apply name_in_path_join.
  - by apply name_in_path_join.
  - intros p Hp1 Hp2. by rewrite !lookup_insert_ne.
Qed.
End CombineLabelsFacts.

(** ** Indices, regions and assignment *)

Lemma elem_of_ndindex (shape idx : list nat) :
  idx ∈ ndindex shape ↔ in_bounds shape idx.
Proof.
  unfold in_bounds. revert idx. induction shape as [|n shape IH]; intros idx; simpl.
  - rewrite list_elem_of_singleton. split; [intros ->; constructor|].
    by intros ->%Forall2_nil_inv_r.
  - rewrite list_elem_of_bind. split.
    + intros (i & (idx' & -> & Hidx')%list_elem_of_fmap & Hi%elem_of_seq).
      constructor; [lia|by apply IH].
    + intros (i & idx' & Hi & Hidx' & ->)%Forall2_cons_inv_r.
      exists i. split; [|apply elem_of_seq; lia].
      apply list_elem_of_fmap. exists idx'. split; [done|by apply IH].
Qed.

Lemma in_bounds_length (shape idx : list nat) :
  in_bounds shape idx → length idx = length shape.
Proof. apply Forall2_length. Qed.

Lemma slices_region_length (slices : list slice) (shape : list nat) :
  length (slices_region slices shape) = length shape.
Proof.
  revert slices. induction shape as [|n shape IH]; intros [|s slices]; simpl;
    by rewrite ?IH.
Qed.

(** The region of slices that lie within the array. *)
Lemma slices_region_within (pcs : list (nat * nat)) (shape : list nat) :
  Forall2 (λ pc n, pc.1 * pc.2 + pc.2 ≤ n) pcs shape →
  slices_region ((λ pc, mk_slice (pc.1 * pc.2) (pc.1 * pc.2 + pc.2)) <$> pcs) shape
  = (λ pc, (pc.1 * pc.2, pc.2)) <$> pcs.
Proof.
  induction 1 as [|[pos csize] n pcs shape Hle _ IH]; [done|].
  rewrite !fmap_cons. cbn [slices_region]. rewrite IH.
  unfold slice_region; simpl in *. do 2 f_equal; lia.
Qed.

Lemma broadcastable_refl (s : list nat) : broadcastable s s = true.
Proof.
  unfold broadcastable. rewrite Nat.sub_diag, !drop_0. simpl.
  apply bool_decide_eq_true. induction s; constructor; auto.
Qed.

(** Values of the region's own shape are written item by item. *)
Lemma broadcast_index_id (value_shape rel : list nat) :
  Forall2 (λ i v, i < v) rel value_shape →
  broadcast_index value_shape rel = rel.
Proof.
  intros Hrel. unfold broadcast_index.
  rewrite (Forall2_length _ _ _ Hrel), Nat.sub_diag, !drop_0. simpl.
  induction Hrel as [|i v rel value_shape Hi _ IH]; simpl; [done|].
  rewrite IH. destruct (decide (v = 1)); f_equal; lia.
Qed.

Section ArrayFacts.
Context {A : Type}.
Implicit Types a value : ndarray A.

Lemma setitem_shape a slices value a' :
  setitem a slices value = Ok a' → shape a' = shape a.
Proof.
  unfold setitem. destruct (decide _); [done|].
  destruct (broadcastable _ _); [|done]. by intros [= <-].
Qed.

(** Whether an assignment succeeds depends on the shapes only; the items
    outside the region are kept and those inside come from the value. *)
Lemma setitem_lockstep a b slices value :
  shape a = shape b →
  match setitem a slices value, setitem b slices value with
  | Ok a', Ok b' =>
      shape a' = shape a ∧ shape b' = shape b ∧
      ∀ idx,
        if decide (in_region (slices_region slices (shape a)) idx)
        then item a' idx = item b' idx
        else item a' idx = item a idx ∧ item b' idx = item b idx
  | Raise e1, Raise e2 => e1 = e2
  | _, _ => False
  end.
Proof.
  intros Hshape. unfold setitem. rewrite <-Hshape.
  destruct (decide _); [done|].
  destruct (broadcastable _ _); [|done].
  split; [done|]. split; [done|]. intros idx; simpl.
  by destruct (decide _).
Qed.

(** An assignment whose slices lie within the array and whose value has the
    shape of the region. *)
Lemma setitem_within a (position : list nat) value :
  length position = length (shape value) →
  Forall2 (λ pc n, pc.1 * pc.2 + pc.2 ≤ n) (zip position (shape value)) (shape a) →
  ∃ a',
    setitem a (chunk_slices position (shape value)) value = Ok a' ∧
    shape a' = shape a ∧
    ∀ idx,
      item a' idx
      = if decide (in_region (slices_region (chunk_slices position (shape value))
                                (shape a)) idx)
        then item value (zip_with (λ i pos_csize, i - pos_csize.1 * pos_csize.2)
                           idx (zip position (shape value)))
        else item a idx.
Proof.
  intros Hlen Hwithin. unfold setitem, chunk_slices.
  pose proof (Forall2_length _ _ _ Hwithin) as Hlen'.
  rewrite length_fmap, Hlen'. destruct (decide _); [lia|].
  rewrite slices_region_within by done.
  rewrite <-list_fmap_compose.
  assert (((λ pc : nat * nat, (pc.1 * pc.2, pc.2)) <$> zip position (shape value)).*2
          = shape value) as Hsnd.
  { rewrite <-list_fmap_compose. rewrite <-(snd_zip position (shape value)) at 2 by lia.
    done. }
  rewrite <-list_fmap_compose in Hsnd. rewrite Hsnd, broadcastable_refl.
  eexists. split; [done|]. split; [done|]. intros idx; simpl.
  destruct (decide _) as [Hin|]; [|done].
  f_equal.
  assert (zip_with (λ i r, i - r.1) idx
            ((λ pc : nat * nat, (pc.1 * pc.2, pc.2)) <$> zip position (shape value))
          = zip_with (λ i pc, i - pc.1 * pc.2) idx (zip position (shape value)))
    as ->.
  { clear. generalize (zip position (shape value)). intros pcs. revert idx.
    induction pcs as [|pc pcs IH]; intros [|i idx]; simpl; by rewrite ?IH. }
  apply broadcast_index_id.
  unfold in_region in Hin. rewrite <-Hsnd at 2.
  clear -Hin. revert Hin. generalize (zip position (shape value)). intros pcs Hin.
  revert idx Hin. induction pcs as [|pc pcs IH]; intros idx Hin.
  - apply Forall2_nil_inv_r in Hin as ->. constructor.
  - apply Forall2_cons_inv_r in Hin as (i & idx' & Hi & Hidx' & ->). simpl in *.
    constructor; [lia|by apply IH].
Qed.
End ArrayFacts.

(** ** Reconstruction *)

Section ReconstructFacts.
Context {A : Type}.
Implicit Types a b chunk : ndarray A.

(** The region of the output that a chunk is written to. *)
Definition chunk_region (original_shape : list nat) chunk (position : list nat)
    : list (nat * nat) :=
  slices_region (chunk_slices position (shape (expand_dims0 chunk))) original_shape.

(** Some chunk of [pairs] is written to [idx]. *)
Definition written (original_shape : list nat)
    (pairs : list (ndarray A * list nat)) (idx : list nat) : Prop :=
  Exists (λ cp, in_region (chunk_region original_shape cp.1 cp.2) idx) pairs.

(** The destination slices jointly cover the output shape. *)
Definition covers (chunks : list (ndarray A)) (chunk_positions : list (list nat))
    (original_shape : list nat) : Prop :=
  ∀ idx, in_bounds original_shape idx →
         written original_shape (zip chunks chunk_positions) idx.

(** The destination slices of a chunk lie within the output shape, one slice
    per axis. *)
Definition chunk_fits (original_shape : list nat) (cp : ndarray A * list nat)
    : Prop :=
  length cp.2 = S (length (shape cp.1)) ∧
  Forall2 (λ pc n, pc.1 * pc.2 + pc.2 ≤ n)
          (zip cp.2 (1 :: shape cp.1)) original_shape.

(** Two runs end alike: with the same exception or with equal arrays. *)
Definition result_eq (r1 r2 : result (ndarray A)) : Prop :=
  match r1, r2 with
  | Ok a, Ok b => array_eq a b
  | Raise e1, Raise e2 => e1 = e2
  | _, _ => False
  end.

Lemma reconstruct_loop_lockstep pairs :
  ∀ a b (P : list nat → Prop),
    shape a = shape b →
    (∀ idx, P idx → item a idx = item b idx) →
    match reconstruct_loop pairs a, reconstruct_loop pairs b with
    | Ok a', Ok b' =>
        shape a' = shape a ∧ shape b' = shape b ∧
        ∀ idx, P idx ∨ written (shape a) pairs idx → item a' idx = item b' idx
    | Raise e1, Raise e2 => e1 = e2
    | _, _ => False
    end.
Proof.
  induction pairs as [|[chunk position] pairs IH]; intros a b P Hshape HP; simpl.
  { split; [done|]. split; [done|]. intros idx [Hidx|Hidx%Exists_nil]; auto. done. }
  pose proof (setitem_lockstep a b
                (chunk_slices position (1 :: shape chunk)) (expand_dims0 chunk)
                Hshape) as Hstep.
  destruct (setitem a _ _) as [a1|e1], (setitem b _ _) as [b1|e2]; simpl;
    try done.
  destruct Hstep as (Ha1 & Hb1 & Hitems).
  assert (∀ idx,
    P idx ∨ in_region (chunk_region (shape a) chunk position) idx →
    item a1 idx = item b1 idx) as HP1.
  { intros idx Hidx. specialize (Hitems idx).
    unfold chunk_region in Hidx. simpl in Hidx.
    destruct (decide _) as [|Hout]; [done|].
    destruct Hitems as [-> ->]. destruct Hidx as [Hidx|Hidx]; [auto|done]. }
  assert (shape a1 = shape b1) as Hshape1 by congruence.
  specialize (IH a1 b1 _ Hshape1 HP1).
  destruct (reconstruct_loop pairs a1) as [a'|e1],
           (reconstruct_loop pairs b1) as [b'|e2]; try done.
  destruct IH as (Ha' & Hb' & Hagree).
  split; [congruence|]. split; [congruence|]. intros idx Hidx.
  apply Hagree. rewrite Ha1. unfold written in *.
  rewrite Exists_cons in Hidx. simpl in Hidx. tauto.
Qed.

Lemma reconstruct_loop_fits pairs :
  ∀ a, Forall (chunk_fits (shape a)) pairs →
       ∃ a', reconstruct_loop pairs a = Ok a' ∧ shape a' = shape a.
Proof.
  induction pairs as [|[chunk position] pairs IH]; intros a Hfits; simpl.
  { by exists a. }
  apply Forall_cons in Hfits as [[Hlen Hwithin] Hfits]. simpl in Hlen, Hwithin.
  destruct (setitem_within a position (expand_dims0 chunk) Hlen Hwithin)
    as (a1 & Hset & Ha1 & _). simpl in Hset. rewrite Hset. simpl.
  destruct (IH a1) as (a' & -> & Ha'); [by rewrite Ha1|].
  exists a'. split; [done|congruence].
Qed.

(** Indices of the squeezed array are indices of the array. *)
Lemma unsqueeze_index_in_bounds (shape idx : list nat) :
  in_bounds (filter (λ n, n ≠ 1) shape) idx →
  in_bounds shape (unsqueeze_index shape idx).
Proof.
  unfold in_bounds. revert idx. induction shape as [|n shape IH]; intros idx; simpl.
  { intros _. constructor. }
  rewrite filter_cons. destruct (decide (n = 1)) as [->|Hn].
  - destruct (decide (1 ≠ 1)); [done|]. intros Hidx. constructor; [lia|auto].
  - destruct (decide (n ≠ 1)); [|done].
    intros (i & idx' & Hi & Hidx' & ->)%Forall2_cons_inv_r.
    constructor; [done|auto].
Qed.

(** The index in the squeezed array of the item at [idx]. *)
Fixpoint squeeze_index (shape idx : list nat) : list nat :=
  match shape, idx with
  | n :: shape, i :: idx =>
      if decide (n = 1) then squeeze_index shape idx
      else i :: squeeze_index shape idx
  | _, _ => []
  end.

Lemma squeeze_index_in_bounds (shape idx : list nat) :
  in_bounds shape idx →
  in_bounds (filter (λ n, n ≠ 1) shape) (squeeze_index shape idx) ∧
  unsqueeze_index shape (squeeze_index shape idx) = idx.
Proof.
  unfold in_bounds. induction 1 as [|i n idx shape Hi _ [IH1 IH2]]; simpl.
  { split; [constructor|done]. }
  rewrite filter_cons. destruct (decide (n = 1)) as [->|Hn].
  - destruct (decide (1 ≠ 1)); [done|]. split; [done|]. rewrite IH2. f_equal. lia.
  - destruct (decide (n ≠ 1)); [|done]. split; [by constructor|].
    by rewrite IH2.
Qed.

(** A voxel that no chunk is written to keeps what it held. *)
Lemma reconstruct_loop_untouched pairs :
  ∀ a a' idx,
    reconstruct_loop pairs a = Ok a' →
    ¬ written (shape a) pairs idx →
    item a' idx = item a idx.
Proof.
  induction pairs as [|[chunk position] pairs IH]; intros a a' idx; simpl.
  { by intros [= <-]. }
  intros (a1 & Hset & Hloop)%bind_Ok Hidx.
  unfold written in Hidx. rewrite Exists_cons in Hidx.
  pose proof (setitem_shape _ _ _ _ Hset) as Ha1.
  rewrite (IH a1 a' idx Hloop) by (rewrite Ha1; unfold written; tauto).
  unfold setitem in Hset. destruct (decide _); [done|].
  destruct (broadcastable _ _); [|done]. injection Hset as <-. simpl.
  destruct (decide _) as [Hin|]; [|done].
  exfalso. apply Hidx. by left.
Qed.

Lemma np_squeeze_array_eq a b :
  shape a = shape b →
  (∀ idx, in_bounds (shape a) idx → item a idx = item b idx) →
  array_eq (np_squeeze a) (np_squeeze b).
Proof.
  intros Hshape Hitems. split; simpl; [by rewrite Hshape|].
  intros idx Hidx. rewrite <-Hshape. by apply Hitems, unsqueeze_index_in_bounds.
Qed.

(** When the destination slices cover the output, the result does not depend
    on what the allocated memory held. *)
Lemma reconstruct_array_from_chunks_covered memory1 memory2 chunks
    chunk_positions original_shape :
  covers chunks chunk_positions original_shape →
  result_eq
    (reconstruct_array_from_chunks memory1 chunks chunk_positions original_shape)
    (reconstruct_array_from_chunks memory2 chunks chunk_positions original_shape).
Proof.
  intros Hcovers. unfold reconstruct_array_from_chunks.
  destruct (index0 chunks) as [first|e]; simpl; [|done].
  pose proof (reconstruct_loop_lockstep (zip chunks chunk_positions)
                (np_empty memory1 original_shape)
                (np_empty memory2 original_shape) (λ _, False) eq_refl) as Hloop.
  destruct (reconstruct_loop _ (np_empty memory1 _)) as [a|e1],
           (reconstruct_loop _ (np_empty memory2 _)) as [b|e2]; simpl;
    try (apply Hloop; done).
  destruct Hloop as (Ha & Hb & Hagree); [done|]. simpl in Ha, Hb.
  apply (np_squeeze_array_eq a b); [congruence|].
  intros idx Hidx. apply Hagree. right. apply Hcovers. by rewrite <-Ha.
Qed.
(** The result has the output shape without any of its axes of length 1. *)
Lemma reconstruct_array_from_chunks_shape (memory : list nat → A) chunks
    chunk_positions original_shape r :
  reconstruct_array_from_chunks memory chunks chunk_positions original_shape
  = Ok r →
  shape r = filter (λ n, n ≠ 1) original_shape.
Proof.
  unfold reconstruct_array_from_chunks.
  intros (first & _ & (a & Hloop & [= <-])%bind_Ok)%bind_Ok.
  pose proof (reconstruct_loop_lockstep (zip chunks chunk_positions)
                (np_empty memory original_shape)
                (np_empty memory original_shape) (λ _, True) eq_refl) as Hshape.
  rewrite Hloop in Hshape. destruct Hshape as (Ha & _); [done|].
  simpl in *. by rewrite Ha.
Qed.

(** A voxel that no destination slice contains holds, in the result, what
    the allocated memory held. *)
Lemma reconstruct_array_from_chunks_uncovered memory chunks chunk_positions
    original_shape r idx :
  in_bounds original_shape idx →
  ¬ written original_shape (zip chunks chunk_positions) idx →
  reconstruct_array_from_chunks memory chunks chunk_positions original_shape
  = Ok r →
  in_bounds (shape r) (squeeze_index original_shape idx) ∧
  item r (squeeze_index original_shape idx) = memory idx.
Proof.
  intros Hidx Hnot. unfold reconstruct_array_from_chunks.
  intros (first & _ & (a & Hloop & [= <-])%bind_Ok)%bind_Ok.
  pose proof (reconstruct_loop_lockstep (zip chunks chunk_positions)
                (np_empty memory original_shape)
                (np_empty memory original_shape) (λ _, True) eq_refl) as Hshape.
  rewrite Hloop in Hshape. destruct Hshape as (Ha & _); [done|].
  simpl in Ha. simpl. rewrite Ha.
  destruct (squeeze_index_in_bounds original_shape idx Hidx) as [Hin ->].
  split; [done|].
  by rewrite (reconstruct_loop_untouched _ _ _ _ Hloop).
Qed.
End ReconstructFacts.

(** ** The round trip through the chunk grid *)

Section RoundTripFacts.
Context {A : Type}.
Implicit Types a chunk T : ndarray A.

(** A chunk that fits and whose items are those of [T] on its region. *)
Definition chunk_of (T : ndarray A) (cp : ndarray A * list nat) : Prop :=
  chunk_fits (shape T) cp ∧
  ∀ idx,
    in_region (chunk_region (shape T) cp.1 cp.2) idx →
    item (expand_dims0 cp.1)
      (zip_with (λ i pc, i - pc.1 * pc.2) idx (zip cp.2 (1 :: shape cp.1)))
    = item T idx.

(** Writing chunks of [T] gives [T] wherever a chunk was written. *)
Lemma reconstruct_loop_chunks_of T pairs :
  ∀ a,
    shape a = shape T →
    Forall (chunk_of T) pairs →
    ∃ a',
      reconstruct_loop pairs a = Ok a' ∧
      shape a' = shape T ∧
      ∀ idx, item a idx = item T idx ∨ written (shape T) pairs idx →
             item a' idx = item T idx.
Proof.
  induction pairs as [|[chunk position] pairs IH]; intros a Hshape Hchunks; simpl.
  { exists a. split; [done|]. split; [done|].
    intros idx [Hidx|Hidx%Exists_nil]; done. }
  apply Forall_cons in Hchunks as [[[Hlen Hwithin] Hitems] Hchunks].
  simpl in Hlen, Hwithin, Hitems. rewrite <-Hshape in Hwithin.
  destruct (setitem_within a position (expand_dims0 chunk) Hlen Hwithin)
    as (a1 & Hset & Ha1 & Hitems1).
  simpl in Hset, Hitems1. rewrite Hset. simpl.
  destruct (IH a1) as (a' & -> & Ha' & Hitems'); [congruence|done|].
  exists a'. split; [done|]. split; [done|].
  intros idx Hidx. apply Hitems'. rewrite Hitems1.
  unfold written in Hidx. rewrite Exists_cons in Hidx.
  unfold chunk_region in Hidx, Hitems. simpl in Hidx, Hitems.
  rewrite Hshape. destruct (decide _) as [Hin|Hout].
  - left. by apply Hitems.
  - unfold written. tauto.
Qed.
End RoundTripFacts.

(** A uniform grid: for each axis the number of blocks and the block size. *)
Definition grid_shape (grid : list (nat * nat)) : list nat :=
  (λ kb, kb.1 * kb.2) <$> grid.

Definition grid_blocks (grid : list (nat * nat)) : list (list nat) :=
  (λ kb, replicate kb.1 kb.2) <$> grid.

(** The region of the block at [location] for block sizes [bds]. *)
Definition block_region (location bds : list nat) : list (nat * nat) :=
  (λ pc, (pc.1 * pc.2, pc.2)) <$> zip location bds.

Lemma grid_blocks_length grid : length <$> grid_blocks grid = grid.*1.
Proof.
  unfold grid_blocks. induction grid as [|[k bd] grid IH]; [done|].
  rewrite !fmap_cons, length_replicate. simpl. by f_equal.
Qed.

Lemma block_offsets grid location :
  in_bounds grid.*1 location →
  zip_with (λ sizes c, sum_list (take c sizes)) (grid_blocks grid) location
  = zip_with Nat.mul location grid.*2.
Proof.
  unfold in_bounds, grid_blocks. revert location.
  induction grid as [|[k bd] grid IH]; intros location Hloc.
  - by apply Forall2_nil_inv_r in Hloc as ->.
  - rewrite !fmap_cons in *.
    apply Forall2_cons_inv_r in Hloc as (c & location' & Hc & Hloc & ->).
    simpl in *. rewrite IH by done.
    rewrite take_replicate, sum_list_replicate, Nat.min_l by lia. done.
Qed.

Lemma block_shape grid location :
  in_bounds grid.*1 location →
  zip_with (λ sizes c, sizes !!! c) (grid_blocks grid) location = grid.*2.
Proof.
  unfold in_bounds, grid_blocks. revert location.
  induction grid as [|[k bd] grid IH]; intros location Hloc.
  - by apply Forall2_nil_inv_r in Hloc as ->.
  - rewrite !fmap_cons in *.
    apply Forall2_cons_inv_r in Hloc as (c & location' & Hc & Hloc & ->).
    simpl in *. rewrite IH by done.
    by rewrite lookup_total_replicate_2.
Qed.

Lemma block_within grid location :
  in_bounds grid.*1 location →
  Forall2 (λ pc n, pc.1 * pc.2 + pc.2 ≤ n) (zip location grid.*2) (grid_shape grid).
Proof.
  unfold in_bounds, grid_shape. revert location.
  induction grid as [|[k bd] grid IH]; intros location Hloc.
  - apply Forall2_nil_inv_r in Hloc as ->. constructor.
  - rewrite !fmap_cons in *.
    apply Forall2_cons_inv_r in Hloc as (c & location' & Hc & Hloc & ->).
    simpl in *. constructor; [simpl; nia|by apply IH].
Qed.

(** Inside a block, offset plus relative index is the index. *)
Lemma block_region_index location bds idx :
  in_region (block_region location bds) idx →
  zip_with Nat.add (zip_with Nat.mul location bds)
    (zip_with (λ i pc, i - pc.1 * pc.2) idx (zip location bds))
  = idx.
Proof.
  unfold in_region, block_region. revert bds idx.
  induction location as [|c location IH]; intros bds idx Hidx.
  - by apply Forall2_nil_inv_r in Hidx as ->.
  - destruct bds as [|bd bds].
    + by apply Forall2_nil_inv_r in Hidx as ->.
    + simpl in Hidx.
      apply Forall2_cons_inv_r in Hidx as (i & idx' & Hi & Hidx & ->).
      simpl in *. rewrite IH by done. f_equal. lia.
Qed.

(** Every index of the grid's shape lies in the block at the location
    obtained by dividing by the block sizes. *)
Lemma grid_covers grid idx :
  Forall (λ kb, 0 < kb.2) grid →
  in_bounds (grid_shape grid) idx →
  let location := zip_with Nat.div idx grid.*2 in
  in_bounds grid.*1 location ∧ in_region (block_region location grid.*2) idx.
Proof.
  unfold in_bounds, in_region, block_region, grid_shape.
  intros Hpos. revert idx. induction Hpos as [|[k bd] grid Hbd _ IH]; intros idx Hidx.
  - apply Forall2_nil_inv_r in Hidx as ->. split; constructor.
  - rewrite !fmap_cons in *.
    apply Forall2_cons_inv_r in Hidx as (i & idx' & Hi & Hidx & ->).
    simpl in *. destruct (IH idx' Hidx) as [Hloc Hreg].
    pose proof (Nat.div_mod i bd) as Hdiv.
    pose proof (Nat.mod_upper_bound i bd) as Hmod.
    split; constructor; try done; simpl.
    + apply Nat.Div0.div_lt_upper_bound. lia.
    + nia.
Qed.

Lemma zip_fmap_self {X Y : Type} (f : X → Y) (l : list X) :
  zip (f <$> l) l = (λ x, (f x, x)) <$> l.
Proof. induction l as [|x l IH]; [done|]. rewrite !fmap_cons. simpl. by f_equal. Qed.

Lemma ndindex_nonempty (shape : list nat) :
  Forall (λ n, 0 < n) shape → ndindex shape ≠ [].
Proof.
  intros Hpos.
  assert (in_bounds shape (replicate (length shape) 0)) as Hin.
  { unfold in_bounds. induction Hpos; simpl; constructor; auto. }
  intros Hnil.
  apply elem_of_ndindex in Hin. rewrite Hnil in Hin. by apply elem_of_nil in Hin.
Qed.

Section ChunkGridFacts.
Context {A : Type}.
Variable strict : bool.
Variable chunk_along_axis : nat → nat.

(** The grid asked for: each axis is [k] blocks of size [bd], and [k] is the
    chunk count of that axis. *)
Definition grid_of (grid : list (nat * nat)) : Prop :=
  Forall (λ kb, 0 < kb.1 ∧ 0 < kb.2 ∧ chunk_along_axis (kb.1 * kb.2) = kb.1) grid.

Lemma mapM_chunk_extent grid :
  grid_of grid →
  mapM (chunk_extent chunk_along_axis) (grid_shape grid)
  = Ok ((λ kb, mk_extent kb.2 true) <$> grid).
Proof.
  intros Hgrid. apply mapM_Ok. unfold grid_shape.
  induction Hgrid as [|[k bd] grid (Hk & Hbd & Hcount) _ IH];
    rewrite ?fmap_cons; constructor; [|done].
  simpl in *. unfold chunk_extent. rewrite Hcount.
  destruct (decide (k = 0)); [lia|].
  rewrite Nat.mul_comm, Nat.div_mul, Nat.Div0.mod_mul by done.
  by rewrite bool_decide_eq_true_2.
Qed.

Lemma mapM_blockdims grid :
  grid_of grid →
  mapM (λ db, blockdims strict db.1 db.2)
    (zip (grid_shape grid) ((λ kb, mk_extent kb.2 true) <$> grid))
  = Ok (grid_blocks grid).
Proof.
  intros Hgrid. apply mapM_Ok. unfold grid_shape, grid_blocks.
  induction Hgrid as [|[k bd] grid (Hk & Hbd & Hcount) _ IH];
    rewrite ?fmap_cons; simpl; constructor; [|done].
  simpl in *. unfold blockdims. rewrite andb_false_r. simpl.
  destruct (decide (k * bd = 0)); [nia|].
  destruct (decide (bd = 0)); [lia|].
  rewrite Nat.div_mul, Nat.Div0.mod_mul by done.
  destruct (decide (0 = 0)); [|done]. by rewrite app_nil_r.
Qed.

Lemma chunk_grid_uniform (V : ndarray A) grid :
  grid_of grid →
  1 :: shape V = grid_shape grid →
  chunk_grid strict chunk_along_axis V
  = Ok (block (expand_dims0 V) (grid_blocks grid) <$> ndindex grid.*1,
        ndindex grid.*1, 1 :: shape V).
Proof.
  intros Hgrid Hshape. unfold chunk_grid. simpl shape. rewrite Hshape.
  rewrite mapM_chunk_extent by done. cbn [mbind result_bind].
  rewrite mapM_blockdims by done. cbn [mbind result_bind].
  by rewrite grid_blocks_length.
Qed.

(** The block at a location of the grid, as the engine returns it, is a
    chunk of the batched volume. *)
Lemma chunk_of_block (T : ndarray A) grid location :
  shape T = grid_shape grid →
  (∃ grid', grid = (1, 1) :: grid') →
  in_bounds grid.*1 location →
  let chunk := drop_axis0 (block T (grid_blocks grid) location) in
  chunk_region (shape T) chunk location = block_region location grid.*2 ∧
  chunk_of T (chunk, location).
Proof.
  intros Hshape [grid' Hgrid'] Hloc chunk.
  assert (1 :: shape chunk = grid.*2) as Hchunk.
  { unfold chunk. simpl. rewrite block_shape by done. by rewrite Hgrid'. }
  assert (chunk_region (shape T) chunk location = block_region location grid.*2)
    as Hregion.
  { unfold chunk_region, chunk_slices.
    change (shape (expand_dims0 chunk)) with (1 :: shape chunk).
    rewrite Hchunk, Hshape.
    apply slices_region_within. by apply block_within. }
  split; [done|]. split.
  - split; simpl fst; simpl snd.
    + apply Forall2_length in Hloc. rewrite Hloc.
      transitivity (length (1 :: shape chunk)); [|done].
      by rewrite Hchunk, !length_fmap.
    + rewrite Hchunk, Hshape. by apply block_within.
  - simpl fst; simpl snd. rewrite Hregion, Hchunk. intros idx Hidx.
    pose proof (block_region_index _ _ _ Hidx) as Hindex.
    unfold chunk. simpl item. rewrite block_offsets by done.
    rewrite <-Hindex at 2. f_equal. f_equal.
    subst grid. unfold in_bounds in Hloc. unfold in_region, block_region in Hidx.
    rewrite !fmap_cons in *.
    apply Forall2_cons_inv_r in Hloc as (c & location' & Hc & _ & ->).
    simpl in Hidx.
    apply Forall2_cons_inv_r in Hidx as (i & idx' & Hi & _ & ->).
    simpl in *. f_equal. lia.
Qed.
End ChunkGridFacts.

Lemma filter_no_singleton (shape : list nat) :
  Forall (λ n, 2 ≤ n) shape → filter (λ n, n ≠ 1) shape = shape.
Proof.
  induction 1 as [|n shape Hn _ IH]; [done|].
  rewrite filter_cons, IH. destruct (decide (n ≠ 1)); [done|lia].
Qed.

Lemma unsqueeze_index_no_singleton (shape idx : list nat) :
  Forall (λ n, 2 ≤ n) shape → length idx = length shape →
  unsqueeze_index shape idx = idx.
Proof.
  intros Hshape. revert idx.
  induction Hshape as [|n shape Hn _ IH]; intros [|i idx] Hlen; try done.
  simpl in *. destruct (decide (n = 1)); [lia|]. rewrite IH; [done|lia].
Qed.

(** The uniform grid of evenly dividing chunk counts. *)
Lemma divides_evenly_grid chunk_along_axis (shape : list nat) :
  Forall (λ n, 0 < n) shape →
  Forall (divides_evenly chunk_along_axis) shape →
  let grid := (λ n, (chunk_along_axis n, n / chunk_along_axis n)) <$> shape in
  grid_shape grid = shape ∧ grid_of chunk_along_axis grid.
Proof.
  intros Hpos Hdiv. simpl. unfold grid_shape, grid_of.
  induction Hpos as [|n shape Hn _ IH]; [by split|].
  apply Forall_cons in Hdiv as [[Hc Hmod] Hdiv].
  destruct (IH Hdiv) as [IH1 IH2]. rewrite !fmap_cons. simpl.
  apply Nat.Div0.div_exact in Hmod.
  split; [by rewrite IH1, <-Hmod|].
  constructor; [|done]. simpl. rewrite <-Hmod.
  split; [done|]. split; [|done].
  destruct (n / chunk_along_axis n); lia.
Qed.

(** C1 (as amended): for a volume without axes of length 1 and chunk
    counts that divide the axis lengths evenly, the reconstruction of the
    chunks of the volume is the volume, whatever the allocated memory
    held and however the chunking treats extents that are not integers. *)
Theorem round_trip_exact {A : Type} (strict : bool)
    (chunk_along_axis : nat → nat) (memory : list nat → A) (V : ndarray A) :
  Forall (λ axis, 2 ≤ axis) (shape V) →
  Forall (divides_evenly chunk_along_axis) (1 :: shape V) →
  ∃ r, round_trip strict chunk_along_axis memory V = Ok r ∧ array_eq r V.
Proof.
  intros Hge2 Hdiv.
  assert (Forall (λ n, 0 < n) (1 :: shape V)) as Hpos.
  { constructor; [lia|]. eapply Forall_impl; [done|]. simpl; lia. }
  destruct (divides_evenly_grid chunk_along_axis (1 :: shape V) Hpos Hdiv)
    as [Hshape Hgrid].
  set (grid := (λ n, (chunk_along_axis n, n / chunk_along_axis n))
                 <$> 1 :: shape V) in *.
  assert (∃ grid', grid = (1, 1) :: grid') as Hhead.
  { apply Forall_cons in Hdiv as [[Hc Hmod] _].
    assert (chunk_along_axis 1 = 1) as Hone.
    { destruct (chunk_along_axis 1) as [|[|c]]; [lia|done|].
      rewrite Nat.mod_small in Hmod; lia. }
    unfold grid. rewrite fmap_cons, Hone. by eexists. }
  clearbody grid.
  assert (Forall (λ kb, 0 < kb.2) grid) as Hbd.
  { eapply Forall_impl; [exact Hgrid|]. simpl. tauto. }
  assert (Forall (λ n, 0 < n) grid.*1) as Hk.
  { apply Forall_fmap. eapply Forall_impl; [exact Hgrid|]. simpl. tauto. }
  set (T := expand_dims0 V).
  assert (shape T = grid_shape grid) as HT by done.
  unfold round_trip, predict_from_array_by_iterator.
  rewrite (chunk_grid_uniform strict chunk_along_axis V grid) by done.
  cbn [mbind result_bind]. unfold reconstruct_array_from_chunks, identity_engine.
  rewrite <-list_fmap_compose.
  destruct (index0 _) as [first|e] eqn:Hfirst.
  2: { exfalso. destruct (ndindex grid.*1) eqn:Hlocations; [|done].
       by apply ndindex_nonempty in Hk. }
  cbn [mbind result_bind]. rewrite zip_fmap_self.
  change (expand_dims0 V) with T.
  destruct (reconstruct_loop_chunks_of T
              ((λ x, ((drop_axis0 ∘ block T (grid_blocks grid)) x, x))
                 <$> ndindex grid.*1)
              (np_empty memory (1 :: shape V)))
    as (a' & -> & Ha' & Hitems); [done| |].
  { apply Forall_fmap, Forall_forall. intros location Hloc%elem_of_ndindex.
    by apply (chunk_of_block T grid location). }
  cbn [mbind result_bind]. eexists. split; [done|].
  assert (filter (λ n, n ≠ 1) (shape a') = shape V) as Hsqueezed.
  { rewrite Ha'. simpl. rewrite filter_cons.
    destruct (decide (1 ≠ 1)); [done|]. by apply filter_no_singleton. }
  split; [done|]. simpl. rewrite Hsqueezed. intros idx Hidx.
  rewrite Ha'. simpl. destruct (decide (1 = 1)); [|done].
  rewrite unsqueeze_index_no_singleton
    by (done || by apply in_bounds_length).
  rewrite Hitems; [done|]. right.
  assert (in_bounds (grid_shape grid) (0 :: idx)) as Hidx'.
  { rewrite Hshape. constructor; [lia|done]. }
  destruct (grid_covers grid (0 :: idx) Hbd Hidx') as [Hloc Hregion].
  apply Exists_exists.
  eexists (_, zip_with Nat.div (0 :: idx) grid.*2). split.
  - apply list_elem_of_fmap. eexists. split; [done|]. by apply elem_of_ndindex.
  - cbn [fst snd]. unfold compose.
    destruct (chunk_of_block T grid _ HT Hhead Hloc) as [-> _]. done.
Qed.

(** ** What the reconstruction does and does not check *)

(** C5 (as amended): chunk sizes are not validated.  Whenever each chunk's
    destination slices lie within the output shape, the reconstruction
    returns an array and reports no error, whether or not the chunk sizes are
    uniform along each axis. *)
Theorem reconstruct_array_from_chunks_no_validation {A : Type}
    (memory : list nat → A) chunks chunk_positions original_shape :
  chunks ≠ [] →
  Forall (chunk_fits original_shape) (zip chunks chunk_positions) →
  ∃ r,
    reconstruct_array_from_chunks memory chunks chunk_positions original_shape
    = Ok r.
Proof.
  intros Hne Hfits. unfold reconstruct_array_from_chunks.
  destruct chunks as [|first chunks]; [done|]. cbn [index0 mbind result_bind].
  destruct (reconstruct_loop_fits (zip (first :: chunks) chunk_positions)
              (np_empty memory original_shape) Hfits) as (a' & -> & Ha').
  by eexists.
Qed.

(** C10: the output is allocated without being initialised.  When the
    destination slices cover the output shape, two runs on the same chunks
    end alike whatever the allocated memory held.  A voxel of the output
    shape that no destination slice contains holds, in the returned array,
    what the memory held: two runs on the same chunks return different values
    there as soon as the memory differs there. *)
Theorem reconstruct_array_from_chunks_uninitialised {A : Type} :
  (∀ (memory1 memory2 : list nat → A) chunks chunk_positions original_shape,
     covers chunks chunk_positions original_shape →
     result_eq
       (reconstruct_array_from_chunks memory1 chunks chunk_positions original_shape)
       (reconstruct_array_from_chunks memory2 chunks chunk_positions original_shape)) ∧
  (∀ (memory1 memory2 : list nat → A) chunks chunk_positions original_shape
     r1 r2 idx,
     in_bounds original_shape idx →
     ¬ written original_shape (zip chunks chunk_positions) idx →
     reconstruct_array_from_chunks memory1 chunks chunk_positions original_shape
     = Ok r1 →
     reconstruct_array_from_chunks memory2 chunks chunk_positions original_shape
     = Ok r2 →
     memory1 idx ≠ memory2 idx →
     in_bounds (shape r1) (squeeze_index original_shape idx) ∧
     item r1 (squeeze_index original_shape idx)
     ≠ item r2 (squeeze_index original_shape idx)).
Proof.
  split; [intros; by apply reconstruct_array_from_chunks_covered|].
  intros memory1 memory2 chunks chunk_positions original_shape r1 r2 idx
    Hidx Hnot Hr1 Hr2 Hmem.
  destruct (reconstruct_array_from_chunks_uncovered _ _ _ _ _ _ Hidx Hnot Hr1)
    as [Hin ->].
  destruct (reconstruct_array_from_chunks_uncovered _ _ _ _ _ _ Hidx Hnot Hr2)
    as [_ ->].
  done.
Qed.

(** ** The properties on the example inputs *)

Lemma example_registry_consistent :
  registry_consistent example_AVAILABLE_MODELS example_MODELS.
Proof.
  intros model Hin. unfold example_AVAILABLE_MODELS in Hin.
  repeat (apply elem_of_cons in Hin as [->|Hin]; [by eexists|]).
  by apply elem_of_nil in Hin.
Defined.

(** C2, on a request that names one model twice and one unknown model. *)
Lemma construct_prediction_routine_groups_witness :
  ∃ routine,
    construct_prediction_routine example_AVAILABLE_MODELS example_MODELS
      (Lst ["clin_ct_organs"; "unknown_x"; "clin_pt_fdg_tumor"; "clin_ct_organs"])
    = Ok routine ∧
    (∀ model k,
       occurrences model (group_of routine k)
       = if decide (registered_with example_AVAILABLE_MODELS example_MODELS model k)
         then occurrences model
                (requested (Lst ["clin_ct_organs"; "unknown_x";
                                 "clin_pt_fdg_tumor"; "clin_ct_organs"]))
         else 0) ∧
    (NoDup (requested (Lst ["clin_ct_organs"; "unknown_x";
                            "clin_pt_fdg_tumor"; "clin_ct_organs"])) →
     ∀ k, NoDup (group_of routine k)).
Proof.
  apply (construct_prediction_routine_groups example_AVAILABLE_MODELS
           example_MODELS).
  apply example_registry_consistent.
Defined.

(** C2 as stated fails: an identifier requested twice is twice in its
    group. *)
Lemma construct_prediction_routine_repeats :
  construct_prediction_routine example_AVAILABLE_MODELS example_MODELS
    (Lst ["clin_ct_organs"; "clin_ct_organs"])
  = Ok {[ [15; 15; 15]%Z := ["clin_ct_organs"; "clin_ct_organs"] ]} ∧
  ¬ NoDup ["clin_ct_organs"; "clin_ct_organs"]%string.
Proof.
  split; [by vm_compute|].
  intros [Hnotin _]%NoDup_cons. apply Hnotin. by left.
Qed.

(** C7 as stated fails: the missing file surfaces as an [IndexError]. *)
Lemma missing_segmentation_file_not_reported :
  get_files example_fs_missing example_directory "CT_Lungs_" nifti_suffixes = [] ∧
  create_multi_model_label_segmentation example_Model example_fs_missing
    example_directory example_ids = Raise IndexError ∧
  create_multi_model_label_segmentation example_Model example_fs_missing
    example_directory example_ids ≠ Raise FileNotFoundError.
Proof. split; [by vm_compute|]. split; by vm_compute. Qed.

(** C7 on the directory without the second model's segmentation. *)
Lemma missing_segmentation_file_IndexError_witness :
  create_multi_model_label_segmentation example_Model example_fs_missing
    example_directory example_ids = Raise IndexError.
Proof.
  apply (missing_segmentation_file_IndexError example_Model example_fs_missing
           example_directory example_ids
           [mk_model "CT_Organs_" {[1%N := "liver"]}]
           (mk_model "CT_Lungs_" {[1%N := "lung"]}) []).
  - reflexivity.
  - constructor; [|constructor].
    exists "/out/segmentations/CT_Organs_patient.nii.gz"%string, [1; 0; 0]%N.
    split; by vm_compute.
  - by vm_compute.
Defined.

(** C8 on the example directory. *)
Lemma combined_segmentation_files_witness :
  ∃ fs',
    create_multi_model_label_segmentation example_Model example_fs
      example_directory example_ids
    = Ok (fs', ([1; 2; 0]%N, {[1%N := "liver"%string; 2%N := "lung"%string]})) ∧
    fs' !! "/out/segmentations/combined_segmentations.nii.gz"%string
    = Some (ImageFile [1; 2; 0]%N) ∧
    fs' !! "/out/segmentations/combined_segmentations.json"%string
    = Some (JsonFile {[1%N := "liver"%string; 2%N := "lung"%string]}).
Proof.
  eexists. split; [by vm_compute|].
  pose proof (combined_segmentation_files example_Model example_fs
                example_directory example_ids _ _ _ eq_refl) as (Hv & Hi & _).
  split; [exact Hv|exact Hi].
Defined.

Lemma example_Model_no_background id m :
  example_Model id = Ok m → organ_indices m !! 0%N = None.
Proof.
  unfold example_Model. repeat case_decide; intros [= <-]; reflexivity.
Defined.

Lemma example_fs_aligned : aligned example_fs 3.
Proof.
  intros path image Hpath. unfold example_fs in Hpath.
  apply lookup_insert_Some in Hpath as [[_ [= <-]]|[_ Hpath]]; [done|].
  apply lookup_singleton_Some in Hpath as [_ [= <-]]. done.
Defined.

(** C3 on the two example models, whose index 1 collides. *)
Lemma merge_cardinality_witness :
  size (add_model_label_image [1; 0; 0]%N {[1%N := "liver"%string]}
          [1; 1; 0]%N {[1%N := "lung"%string]}).2
  = size ({[1%N := "liver"%string]} : organ_map)
    + size ({[1%N := "lung"%string]} : organ_map) ∧
  ∃ prepared_models,
    mapM example_Model example_ids = Ok prepared_models ∧
    size ({[1%N := "liver"%string; 2%N := "lung"%string]} : organ_map)
    = sum_list ((λ m, size (organ_indices m)) <$> prepared_models).
Proof.
  destruct (merge_cardinality example_Model) as [Hstep Hfold]. split.
  - refine (proj1 (Hstep [1; 0; 0]%N {[1%N := "liver"%string]}
                     [1; 1; 0]%N {[1%N := "lung"%string]} _)).
    by vm_compute.
  - eapply (Hfold example_fs example_directory example_ids).
    + apply example_Model_no_background.
    + by vm_compute.
Defined.

(** C4 on the example images: the voxel both models label keeps the first
    model's label, the voxel only the second labels gets the fresh index 2. *)
Lemma merge_priority_witness :
  (add_model_label_image [1; 0; 0]%N {[1%N := "liver"%string]}
     [1; 1; 0]%N {[1%N := "lung"%string]}).1 !! 0 = Some 1%N ∧
  ∃ base_model prepared_models path base_image,
    mapM example_Model example_ids = Ok (base_model :: prepared_models) ∧
    index0 (get_files example_fs example_directory
              (multilabel_prefix base_model) nifti_suffixes) = Ok path ∧
    ReadImage example_fs path = Ok base_image ∧
    ∀ i a, base_image !! i = Some a → a ≠ 0%N →
           ([1; 2; 0]%N : label_image) !! i = Some a.
Proof.
  destruct (merge_priority example_Model) as [Hstep Hfold]. split.
  - apply (Hstep [1; 0; 0]%N {[1%N := "liver"%string]}
             [1; 1; 0]%N {[1%N := "lung"%string]} 0 1%N 1%N); done.
  - eapply (Hfold example_fs example_directory example_ids _ _ _ 3).
    + apply example_fs_aligned.
    + by vm_compute.
Defined.

(** C1 as stated fails: two chunks are asked for an axis of length 5.  Where
    the extent 2.5 is truncated, the axis is cut into blocks of 2, 2 and 1;
    the last block is written at offset 2 instead of 4, over the third voxel,
    and the fifth voxel is never written.  Where the extent is rejected,
    nothing is returned. *)
Lemma round_trip_remainder_misplaced :
  Forall (λ axis, 0 < axis) (shape volume5) ∧
  Forall (valid_chunk_count two_chunks_for_5) (1 :: shape volume5) ∧
  ravel volume5 = [1; 2; 3; 4; 5]%Z ∧
  result_map (λ r, (shape r, ravel r))
    (round_trip false two_chunks_for_5 (λ _, 0%Z) volume5)
  = Ok ([5], [1; 2; 5; 4; 0]%Z) ∧
  round_trip true two_chunks_for_5 (λ _, 0%Z) volume5 = Raise ValueError.
Proof.
  split; [repeat constructor|].
  split; [repeat constructor|].
  split; [by vm_compute|]. split; by vm_compute.
Qed.

(** C1 on a volume of 4 by 6 voxels in 2 by 3 blocks. *)
Lemma round_trip_exact_witness :
  ∃ r, round_trip true chunks_for_46 (λ _, 0%Z) volume46 = Ok r
       ∧ array_eq r volume46.
Proof.
  apply (round_trip_exact true chunks_for_46 (λ _, 0%Z) volume46).
  - repeat constructor.
  - repeat constructor.
Defined.

(** C5 as stated fails: chunks of sizes 3, 1 and 1 are neither rejected nor
    placed side by side; the second and third overwrite the first and two
    voxels keep what the memory held. *)
Lemma reconstruct_array_from_chunks_irregular :
  shape <$> irregular_chunks = [[3]; [1]; [1]] ∧
  uniform_except_last [3; 1; 1] = false ∧
  result_map (λ r, (shape r, ravel r))
    (reconstruct_array_from_chunks (λ _, 0%Z) irregular_chunks
       irregular_positions [1; 5])
  = Ok ([5], [10; 13; 14; 0; 0]%Z).
Proof. split; [done|]. split; by vm_compute. Qed.

(** C5 on the chunks of sizes 3, 1 and 1. *)
Lemma reconstruct_array_from_chunks_no_validation_witness :
  ∃ r,
    reconstruct_array_from_chunks (λ _, 0%Z) irregular_chunks
      irregular_positions [1; 5] = Ok r.
Proof.
  apply (reconstruct_array_from_chunks_no_validation (λ _, 0%Z)
           irregular_chunks irregular_positions [1; 5]).
  - done.
  - repeat constructor.
Defined.

(** C6 fails on the code: the volume has an interior axis of length 1, the
    chunk covers the whole output of shape (1, 2, 1, 3), and the result has
    shape (2, 3), not (2, 1, 3). *)
Lemma reconstruct_array_from_chunks_squeezes_interior_axis :
  shape <$> slab_chunks = [[2; 1; 3]] ∧
  result_map (λ r, (shape r, ravel r))
    (reconstruct_array_from_chunks (λ _, 0%Z) slab_chunks [[0; 0; 0; 0]]
       [1; 2; 1; 3])
  = Ok ([2; 3], [1; 2; 3; 4; 5; 6]%Z).
Proof. split; by vm_compute. Qed.

(** C10 on one chunk that covers the whole output, and on one chunk of
    two items for an output of three, whose third voxel differs between two
    runs. *)
Lemma reconstruct_array_from_chunks_uninitialised_witness :
  result_eq
    (reconstruct_array_from_chunks (λ _, 0%Z) slab_chunks [[0; 0; 0; 0]]
       [1; 2; 1; 3])
    (reconstruct_array_from_chunks (λ _, 1%Z) slab_chunks [[0; 0; 0; 0]]
       [1; 2; 1; 3]) ∧
  ∃ r1 r2,
    reconstruct_array_from_chunks (λ _, 0%Z) short_chunks [[0; 0]] [1; 3] = Ok r1 ∧
    reconstruct_array_from_chunks (λ _, 1%Z) short_chunks [[0; 0]] [1; 3] = Ok r2 ∧
    in_bounds (shape r1) [2] ∧ item r1 [2] ≠ item r2 [2].
Proof.
  destruct (@reconstruct_array_from_chunks_uninitialised Z) as [Hcovered Hnot].
  split.
  - apply Hcovered.
    intros idx Hidx%elem_of_ndindex. apply Exists_cons. left.
    vm_compute in Hidx.
    repeat (apply elem_of_cons in Hidx as [->|Hidx];
            [by apply (bool_decide_eq_true_1 _)|]).
    by apply elem_of_nil in Hidx.
  - eexists _, _. split; [reflexivity|]. split; [reflexivity|].
    apply (Hnot (λ _, 0%Z) (λ _, 1%Z) short_chunks [[0; 0]] [1; 3] _ _ [0; 2]);
      try done.
    + repeat constructor.
    + intros Hw. apply Exists_cons in Hw as [Hw|Hw%Exists_nil]; [|done].
      revert Hw. by apply (bool_decide_eq_false_1 _).
Defined.

(** * Further properties *)

(** ** The prediction routine: order, keys and errors *)

Section PredictionRoutineMore.
Context {spacing : Type} `{Countable spacing}.
Variable AVAILABLE_MODELS : list string.
Variable MODELS : gmap string spacing.

Local Abbreviation loop := (prediction_routine_loop AVAILABLE_MODELS MODELS).
Local Abbreviation registered := (registered_with AVAILABLE_MODELS MODELS).

(** An identifier that passes the membership test and has no registry
    entry. *)
Definition unregistered (model : string) : Prop :=
  model ∈ AVAILABLE_MODELS ∧ MODELS !! model = None.

(** The requested identifiers that belong to the group of [k], in the order
    of the request. *)
Definition requested_with (k : spacing) (models : list string) : list string :=
  filter (λ model, registered model k) models.

Lemma default_group (group : list string) :
  default [] (if decide (group = []) then None else Some group) = group.
Proof. by destruct (decide _) as [->|]. Qed.

(** What the loop makes of each key of the dictionary it starts from. *)
Lemma prediction_routine_loop_lookup models :
  ∀ routine routine',
    loop models routine = Ok routine' →
    ∀ k,
      routine' !! k
      = match routine !! k with
        | Some group => Some (group ++ requested_with k models)
        | None =>
            if decide (requested_with k models = []) then None
            else Some (requested_with k models)
        end.
Proof.
  unfold requested_with.
  induction models as [|m models IH]; intros routine routine' Hloop k.
  { injection Hloop as <-. destruct (routine !! k); [by rewrite app_nil_r|done]. }
  cbn [prediction_routine_loop] in Hloop. rewrite filter_cons.
  destruct (bool_decide_reflect (m ∈ AVAILABLE_MODELS)) as [Hin|Hnin].
  - destruct (MODELS !! m) as [sp|] eqn:Hsp; [|done].
    assert (∃ group1,
      loop models (<[sp := group1]> routine) = Ok routine' ∧
      group1 = default [] (routine !! sp) ++ [m]) as (group1 & Hloop1 & Hgroup1).
    { destruct (routine !! sp) as [group|]; eexists; split; done. }
    rewrite (IH _ _ Hloop1 k).
    destruct (decide (sp = k)) as [->|Hne].
    + rewrite lookup_insert_eq, Hgroup1.
      destruct (decide (registered m k)) as [_|Hnot].
      2: { exfalso. apply Hnot. by split. }
      destruct (routine !! k); simpl; [by rewrite <-app_assoc|done].
    + rewrite lookup_insert_ne by done.
      destruct (decide (registered m k)) as [[_ Hreg]|_]; [congruence|done].
  - rewrite (IH _ _ Hloop k).
    destruct (decide (registered m k)) as [[Hin _]|_]; done.
Qed.

(** The loop fails only with [KeyError], and exactly when it meets an
    identifier without registry entry. *)
Lemma prediction_routine_loop_KeyError models :
  ∀ routine,
    (Exists unregistered models ∧ loop models routine = Raise KeyError) ∨
    (¬ Exists unregistered models ∧ ∃ routine', loop models routine = Ok routine').
Proof.
  induction models as [|m models IH]; intros routine; simpl.
  { right. split; [by intros ?%Exists_nil|by eexists]. }
  destruct (bool_decide_reflect (m ∈ AVAILABLE_MODELS)) as [Hin|Hnin].
  - destruct (MODELS !! m) as [sp|] eqn:Hsp.
    + assert (¬ unregistered m) as Hm by (intros [_ ?]; congruence).
      assert (∃ routine1,
        match routine !! sp with
        | Some group => loop models (<[sp := group ++ [m]]> routine)
        | None => loop models (<[sp := [m]]> routine)
        end = loop models routine1) as [routine1 ->].
      { destruct (routine !! sp); by eexists. }
      destruct (IH routine1) as [[Hex Hloop]|[Hnex Hloop]];
        [left; split; [by right|done]
        |right; split; [by intros [?|?]%Exists_cons|done]].
    + left. split; [|done]. left. by split.
  - assert (¬ unregistered m) as Hm by (by intros [? _]).
    destruct (IH routine) as [[Hex Hloop]|[Hnex Hloop]];
      [left; split; [by right|done]
      |right; split; [by intros [?|?]%Exists_cons|done]].
Qed.

(** X1: in the routine that is built, each group lists the requested
    identifiers registered with its spacing in the order of the request. *)
Theorem construct_prediction_routine_order (models : models_arg) routine :
  construct_prediction_routine AVAILABLE_MODELS MODELS models = Ok routine →
  ∀ k, group_of routine k = requested_with k (requested models).
Proof.
  intros Hrun k. unfold group_of.
  rewrite (prediction_routine_loop_lookup _ _ _ Hrun k), lookup_empty.
  apply default_group.
Qed.

(** X2: the keys of the routine are exactly the spacings of the requested
    identifiers of the registry, and no group is empty. *)
Theorem construct_prediction_routine_keys (models : models_arg) routine :
  construct_prediction_routine AVAILABLE_MODELS MODELS models = Ok routine →
  ∀ k,
    (is_Some (routine !! k)
     ↔ ∃ model, model ∈ requested models ∧ registered model k) ∧
    routine !! k ≠ Some [].
Proof.
  intros Hrun k.
  rewrite (prediction_routine_loop_lookup _ _ _ Hrun k), lookup_empty.
  unfold requested_with. destruct (decide _) as [Hnil|Hne].
  - split; [|done]. split; [by intros []|].
    intros (model & Hin & Hreg).
    assert (model ∈ filter (λ model, registered model k) (requested models))
      as Hfilter by (by apply list_elem_of_filter).
    rewrite Hnil in Hfilter. by apply elem_of_nil in Hfilter.
  - split; [|congruence]. split; [|by eexists].
    intros _.
    destruct (filter _ (requested models)) as [|model rest] eqn:Hfilter; [done|].
    exists model. apply and_comm, (list_elem_of_filter (λ model, registered model k)).
    rewrite Hfilter. by left.
Qed.

(** X3: building the routine either succeeds or raises [KeyError]; it
    raises exactly when a requested identifier passes the membership test
    without having a registry entry. *)
Theorem construct_prediction_routine_KeyError (models : models_arg) :
  (construct_prediction_routine AVAILABLE_MODELS MODELS models = Raise KeyError
   ↔ Exists unregistered (requested models)) ∧
  (construct_prediction_routine AVAILABLE_MODELS MODELS models ≠ Raise KeyError →
   ∃ routine,
     construct_prediction_routine AVAILABLE_MODELS MODELS models = Ok routine).
Proof.
  unfold construct_prediction_routine.
  destruct (prediction_routine_loop_KeyError (requested models) ∅)
    as [[Hex ->]|[Hnex [routine ->]]].
  - split; [done|]. by intros [].
  - split; [|by eexists]. split; [done|]. by intros ?%Hnex.
Qed.

Lemma prediction_routine_loop_filter models :
  ∀ routine,
    loop (filter (λ model, model ∈ AVAILABLE_MODELS) models) routine
    = loop models routine.
Proof.
  induction models as [|m models IH]; intros routine; [done|].
  rewrite filter_cons. simpl.
  destruct (decide (m ∈ AVAILABLE_MODELS)) as [Hin|Hnin]; simpl.
  - rewrite (bool_decide_eq_true_2 _ Hin).
    destruct (MODELS !! m) as [sp|]; [|done].
    destruct (routine !! sp); apply IH.
  - rewrite (bool_decide_eq_false_2 _ Hnin). apply IH.
Qed.

(** X4: identifiers that are not available can be left out of a request:
    the outcome is the same, exception or routine. *)
Theorem construct_prediction_routine_unknown_dropped (models : list string) :
  construct_prediction_routine AVAILABLE_MODELS MODELS
    (Lst (filter (λ model, model ∈ AVAILABLE_MODELS) models))
  = construct_prediction_routine AVAILABLE_MODELS MODELS (Lst models).
Proof. apply prediction_routine_loop_filter. Qed.

(** X5: the routine of two requests in a row groups what the routines of
    the two requests group, the first request's identifiers first. *)
Theorem construct_prediction_routine_app (models1 models2 : list string) routine :
  construct_prediction_routine AVAILABLE_MODELS MODELS (Lst (models1 ++ models2))
  = Ok routine →
  ∃ routine1 routine2,
    construct_prediction_routine AVAILABLE_MODELS MODELS (Lst models1)
    = Ok routine1 ∧
    construct_prediction_routine AVAILABLE_MODELS MODELS (Lst models2)
    = Ok routine2 ∧
    ∀ k, group_of routine k = group_of routine1 k ++ group_of routine2 k.
Proof.
  intros Hrun. unfold construct_prediction_routine in *. simpl in *.
  destruct (prediction_routine_loop_KeyError (models1 ++ models2) ∅)
    as [[_ Hfail]|[Hnex _]]; [congruence|].
  destruct (prediction_routine_loop_KeyError models1 ∅)
    as [[Hex _]|[_ [routine1 Hrun1]]].
  { exfalso. apply Hnex, Exists_app. by left. }
  destruct (prediction_routine_loop_KeyError models2 ∅)
    as [[Hex _]|[_ [routine2 Hrun2]]].
  { exfalso. apply Hnex, Exists_app. by right. }
  exists routine1, routine2. split; [done|]. split; [done|].
  intros k. unfold group_of.
  rewrite (prediction_routine_loop_lookup _ _ _ Hrun k),
    (prediction_routine_loop_lookup _ _ _ Hrun1 k),
    (prediction_routine_loop_lookup _ _ _ Hrun2 k), !lookup_empty.
  unfold requested_with. by rewrite !default_group, filter_app.
Qed.
End PredictionRoutineMore.

(** ** Reconstruction: overlap, bounds and pairing *)

(** The index of a voxel relative to the offset of a chunk. *)
Definition relative_index (position chunk_shape idx : list nat) : list nat :=
  zip_with (λ i pc, i - pc.1 * pc.2) idx (zip position chunk_shape).

Lemma zip_app_surplus_r {X Y : Type} (l : list X) (k more : list Y) :
  length l ≤ length k → zip l (k ++ more) = zip l k.
Proof.
  revert k. induction l as [|x l IH]; intros [|y k] Hlen; simpl in *;
    try done; try lia.
  f_equal. apply IH. lia.
Qed.

Lemma zip_app_surplus_l {X Y : Type} (l more : list X) (k : list Y) :
  length k ≤ length l → zip (l ++ more) k = zip l k.
Proof.
  revert k. induction l as [|x l IH]; intros [|y k] Hlen; simpl in *;
    try done; try lia.
  - by destruct more.
  - f_equal. apply IH. lia.
Qed.

Lemma slices_region_lookup (slices : list slice) (shape : list nat) axis s n :
  slices !! axis = Some s → shape !! axis = Some n →
  slices_region slices shape !! axis = Some (slice_region s n).
Proof.
  revert slices axis. induction shape as [|m shape IH];
    intros [|s' slices] [|axis] Hs Hn; simplify_eq/=; eauto.
Qed.

Section ReconstructMore.
Context {A : Type}.
Implicit Types a chunk : ndarray A.

Lemma reconstruct_loop_app (pairs1 pairs2 : list (ndarray A * list nat)) a :
  reconstruct_loop (pairs1 ++ pairs2) a
  = reconstruct_loop pairs1 a ≫= reconstruct_loop pairs2.
Proof.
  revert a. induction pairs1 as [|[chunk position] pairs1 IH]; intros a; [done|].
  simpl. destruct (setitem a _ _) as [a1|e]; simpl; [apply IH|done].
Qed.

Lemma reconstruct_loop_shape (pairs : list (ndarray A * list nat)) a a' :
  reconstruct_loop pairs a = Ok a' → shape a' = shape a.
Proof.
  revert a. induction pairs as [|[chunk position] pairs IH]; intros a; simpl.
  { by intros [= <-]. }
  intros (a1 & Hset%setitem_shape & Hloop%IH)%bind_Ok. congruence.
Qed.

(** The region of a chunk that fits is its block at offset position times
    size. *)
Lemma chunk_region_fits original_shape (cp : ndarray A * list nat) :
  chunk_fits original_shape cp →
  chunk_region original_shape cp.1 cp.2 = block_region cp.2 (1 :: shape cp.1).
Proof.
  intros [_ Hwithin]. unfold chunk_region, chunk_slices, block_region.
  by apply slices_region_within.
Qed.

Lemma chunk_region_in_bounds original_shape (cp : ndarray A * list nat) idx :
  chunk_fits original_shape cp →
  in_region (chunk_region original_shape cp.1 cp.2) idx →
  in_bounds original_shape idx.
Proof.
  intros Hfits. rewrite chunk_region_fits by done. destruct Hfits as [_ Hwithin].
  unfold in_region, in_bounds, block_region.
  revert idx. induction Hwithin as [|pc n pcs original_shape Hle _ IH]; intros idx.
  - intros ->%Forall2_nil_inv_r. constructor.
  - rewrite fmap_cons. intros (i & idx' & Hi & Hidx' & ->)%Forall2_cons_inv_r.
    simpl in Hi. constructor; [lia|by apply IH].
Qed.

(** X6: where chunks overlap, the later one wins: a voxel holds the item of
    the last chunk whose destination slices contain it. *)
Theorem reconstruct_array_from_chunks_last_writer (memory : list nat → A)
    chunks chunk_positions original_shape r before chunk position after idx :
  reconstruct_array_from_chunks memory chunks chunk_positions original_shape
  = Ok r →
  zip chunks chunk_positions = before ++ (chunk, position) :: after →
  chunk_fits original_shape (chunk, position) →
  in_region (chunk_region original_shape chunk position) idx →
  ¬ written original_shape after idx →
  item r (squeeze_index original_shape idx)
  = item chunk (tail (relative_index position (1 :: shape chunk) idx)).
Proof.
  intros Hrun Hzip Hfits Hin Hafter. unfold reconstruct_array_from_chunks in Hrun.
  apply bind_Ok in Hrun as (first & _ & (a & Hloop & [= <-])%bind_Ok).
  rewrite Hzip, reconstruct_loop_app in Hloop.
  apply bind_Ok in Hloop as (a1 & Hbefore & Hloop). simpl in Hloop.
  apply bind_Ok in Hloop as (a2 & Hset & Hafter_loop).
  pose proof (reconstruct_loop_shape _ _ _ Hbefore) as Ha1. simpl in Ha1.
  pose proof (setitem_shape _ _ _ _ Hset) as Ha2.
  pose proof (reconstruct_loop_shape _ _ _ Hafter_loop) as Ha.
  pose proof (chunk_region_in_bounds _ (chunk, position) idx Hfits Hin) as Hidx.
  destruct Hfits as [Hlen Hwithin]. simpl in Hlen, Hwithin.
  rewrite <-Ha1 in Hwithin.
  destruct (setitem_within a1 position (expand_dims0 chunk) Hlen Hwithin)
    as (a2' & Hset' & _ & Hitems).
  simpl in Hset'. rewrite Hset in Hset'. injection Hset' as <-.
  simpl. rewrite Ha, Ha2, Ha1.
  destruct (squeeze_index_in_bounds original_shape idx Hidx) as [_ ->].
  rewrite (reconstruct_loop_untouched _ _ _ _ Hafter_loop)
    by (by rewrite Ha2, Ha1).
  rewrite Hitems. simpl. rewrite Ha1.
  by destruct (decide _).
Qed.

(** X8: chunks and positions are paired by position in the lists; what one
    list has more than the other is ignored without an error. *)
Theorem reconstruct_array_from_chunks_unpaired (memory : list nat → A)
    chunks chunk_positions more_chunks more_positions original_shape :
  length chunks = length chunk_positions →
  chunks ≠ [] →
  reconstruct_array_from_chunks memory chunks (chunk_positions ++ more_positions)
    original_shape
  = reconstruct_array_from_chunks memory chunks chunk_positions original_shape ∧
  reconstruct_array_from_chunks memory (chunks ++ more_chunks) chunk_positions
    original_shape
  = reconstruct_array_from_chunks memory chunks chunk_positions original_shape.
Proof.
  intros Hlen Hne. unfold reconstruct_array_from_chunks.
  rewrite zip_app_surplus_r, zip_app_surplus_l by lia.
  split; [done|]. by destruct chunks.
Qed.

(** X9: a chunk with one slice per axis that reaches beyond the output along
    an axis where it is at least two items long is not clipped: the
    assignment raises [ValueError] (when the chunks before it were placed). *)
Theorem reconstruct_array_from_chunks_out_of_bounds (memory : list nat → A)
    chunks chunk_positions original_shape before chunk position after
    axis pos csize n :
  zip chunks chunk_positions = before ++ (chunk, position) :: after →
  Forall (chunk_fits original_shape) before →
  length position = S (length (shape chunk)) →
  length original_shape = S (length (shape chunk)) →
  position !! axis = Some pos →
  (1 :: shape chunk) !! axis = Some csize →
  original_shape !! axis = Some n →
  2 ≤ csize → n < pos * csize + csize →
  reconstruct_array_from_chunks memory chunks chunk_positions original_shape
  = Raise ValueError.
Proof.
  intros Hzip Hbefore Hlen Hrank Hpos Hcsize Hn Hcs Hout.
  unfold reconstruct_array_from_chunks.
  destruct chunks as [|first chunks]; [by destruct before|].
  cbn [index0 mbind result_bind]. rewrite Hzip, reconstruct_loop_app.
  destruct (reconstruct_loop_fits before (np_empty memory original_shape) Hbefore)
    as (a1 & -> & Ha1). simpl in Ha1. cbn [mbind result_bind].
  cbn [reconstruct_loop]. unfold setitem.
  assert (length (chunk_slices position (shape (expand_dims0 chunk)))
          = length original_shape) as Hslices.
  { unfold chunk_slices. rewrite length_fmap, length_zip. simpl. lia. }
  rewrite Ha1, Hslices. destruct (decide _); [lia|].
  assert (broadcastable (shape (expand_dims0 chunk))
            (slices_region (chunk_slices position (shape (expand_dims0 chunk)))
               original_shape).*2 = false) as ->; [|done].
  unfold broadcastable.
  rewrite length_fmap, slices_region_length. simpl length. rewrite <-Hrank.
  rewrite Nat.sub_diag, !drop_0. simpl forallb.
  apply bool_decide_eq_false. intros Hall.
  assert (chunk_slices position (shape (expand_dims0 chunk)) !! axis
          = Some (mk_slice (pos * csize) (pos * csize + csize))) as Hslice.
  { unfold chunk_slices. rewrite list_lookup_fmap.
    erewrite (proj2 (lookup_zip_Some _ _ _ _ _)); [done|].
    by split. }
  pose proof (slices_region_lookup _ _ _ _ _ Hslice Hn) as Hregion.
  eapply (Forall2_lookup_lr _ _ _ axis) in Hall; [|exact Hcsize|].
  2: { rewrite list_lookup_fmap, Hregion. done. }
  simpl in Hall. lia.
Qed.

(** Two runs end alike up to the order of the chunks: both raise, or both
    return and the arrays are equal. *)
Definition same_outcome (r1 r2 : result (ndarray A)) : Prop :=
  match r1, r2 with
  | Ok a, Ok b => array_eq a b
  | Raise _, Raise _ => True
  | _, _ => False
  end.

(** The same, for arrays that agree at every index. *)
Definition loop_agree (r1 r2 : result (ndarray A)) : Prop :=
  match r1, r2 with
  | Ok a, Ok b => shape a = shape b ∧ ∀ idx, item a idx = item b idx
  | Raise _, Raise _ => True
  | _, _ => False
  end.

(** No voxel lies in the destination slices of two chunks. *)
Definition disjoint_chunks (original_shape : list nat)
    (pairs : list (ndarray A * list nat)) : Prop :=
  ∀ idx,
    length (filter (λ cp, in_region (chunk_region original_shape cp.1 cp.2) idx)
              pairs) ≤ 1.

Lemma setitem_cases a slices (value : ndarray A) :
  (∃ e, ∀ b, shape b = shape a → setitem b slices value = Raise e) ∨
  (∀ b, shape b = shape a →
        ∃ b', setitem b slices value = Ok b' ∧ shape b' = shape a ∧
              ∀ idx,
                item b' idx
                = if decide (in_region (slices_region slices (shape a)) idx)
                  then item value
                         (broadcast_index (shape value)
                            (zip_with (λ i r, i - r.1) idx
                               (slices_region slices (shape a))))
                  else item b idx).
Proof.
  unfold setitem.
  destruct (decide (length (shape a) < length slices)) as [Hlt|Hge].
  { left. exists IndexError. intros b ->.
    by destruct (decide (length (shape a) < length slices)). }
  destruct (broadcastable (shape value) (slices_region slices (shape a)).*2)
    eqn:Hbroadcast.
  - right. intros b Hb. rewrite Hb.
    destruct (decide (length (shape a) < length slices)); [done|].
    rewrite Hbroadcast. eexists. split; [done|]. split; [done|]. done.
  - left. exists ValueError. intros b ->.
    destruct (decide (length (shape a) < length slices)); [done|].
    by rewrite Hbroadcast.
Qed.

Lemma loop_agree_same pairs a b :
  shape a = shape b → (∀ idx, item a idx = item b idx) →
  loop_agree (reconstruct_loop pairs a) (reconstruct_loop pairs b).
Proof.
  intros Hshape Hitems.
  pose proof (reconstruct_loop_lockstep pairs a b (λ _, True) Hshape) as Hloop.
  unfold loop_agree.
  destruct (reconstruct_loop pairs a), (reconstruct_loop pairs b);
    try (apply Hloop; auto); [|done].
  destruct Hloop as (Ha & Hb & Hagree); [auto|].
  split; [congruence|]. auto.
Qed.

Lemma loop_agree_trans (r1 r2 r3 : result (ndarray A)) :
  loop_agree r1 r2 → loop_agree r2 r3 → loop_agree r1 r3.
Proof.
  unfold loop_agree. destruct r1, r2, r3; try done.
  intros [Hs1 Hi1] [Hs2 Hi2]. split; [congruence|].
  intros idx. by rewrite Hi1, Hi2.
Qed.

Lemma disjoint_chunks_cons original_shape cp pairs :
  disjoint_chunks original_shape (cp :: pairs) →
  disjoint_chunks original_shape pairs.
Proof.
  intros Hdisjoint idx. specialize (Hdisjoint idx).
  rewrite filter_cons in Hdisjoint. destruct (decide _); simpl in *; lia.
Qed.

Lemma reconstruct_loop_Permutation pairs pairs' :
  pairs ≡ₚ pairs' →
  ∀ a b,
    disjoint_chunks (shape a) pairs →
    shape a = shape b → (∀ idx, item a idx = item b idx) →
    loop_agree (reconstruct_loop pairs a) (reconstruct_loop pairs' b).
Proof.
  induction 1 as [|[chunk position] pairs pairs' _ IH
                  |[chunk1 position1] [chunk2 position2] pairs
                  |pairs1 pairs2 pairs3 Hperm1 IH1 Hperm2 IH2];
    intros a b Hdisjoint Hshape Hitems.
  - by split.
  - cbn [reconstruct_loop].
    destruct (setitem_cases a (chunk_slices position (shape (expand_dims0 chunk)))
                (expand_dims0 chunk)) as [[e Hfail]|Hok].
    { rewrite (Hfail a), (Hfail b) by done. done. }
    destruct (Hok a eq_refl) as (a1 & -> & Ha1 & Hitems_a).
    destruct (Hok b (eq_sym Hshape)) as (b1 & -> & Hb1 & Hitems_b).
    cbn [mbind result_bind]. apply IH.
    + rewrite Ha1. by eapply disjoint_chunks_cons.
    + congruence.
    + intros idx. rewrite Hitems_a, Hitems_b. by destruct (decide _).
  - cbn [reconstruct_loop].
    set (slices1 := chunk_slices position1 (shape (expand_dims0 chunk1))).
    set (slices2 := chunk_slices position2 (shape (expand_dims0 chunk2))).
    destruct (setitem_cases a slices1 (expand_dims0 chunk1)) as [[e1 Hfail1]|Hok1],
             (setitem_cases a slices2 (expand_dims0 chunk2)) as [[e2 Hfail2]|Hok2].
    + rewrite (Hfail2 a), (Hfail1 b) by done. done.
    + rewrite (Hfail1 b) by done.
      destruct (Hok2 a eq_refl) as (a1 & -> & Ha1 & _).
      cbn [mbind result_bind]. by rewrite (Hfail1 a1).
    + rewrite (Hfail2 a) by done.
      destruct (Hok1 b (eq_sym Hshape)) as (b1 & -> & Hb1 & _).
      cbn [mbind result_bind]. by rewrite (Hfail2 b1).
    + destruct (Hok2 a eq_refl) as (a1 & -> & Ha1 & Hitems_a1).
      destruct (Hok1 b (eq_sym Hshape)) as (b1 & -> & Hb1 & Hitems_b1).
      cbn [mbind result_bind].
      destruct (Hok1 a1 Ha1) as (a2 & -> & Ha2 & Hitems_a2).
      destruct (Hok2 b1 Hb1) as (b2 & -> & Hb2 & Hitems_b2).
      cbn [mbind result_bind]. apply loop_agree_same; [congruence|].
      intros idx. rewrite Hitems_a2, Hitems_b2, Hitems_a1, Hitems_b1.
      specialize (Hdisjoint idx). rewrite !filter_cons in Hdisjoint.
      unfold chunk_region in Hdisjoint. cbn [fst snd] in Hdisjoint.
      fold slices1 slices2 in Hdisjoint.
      repeat destruct (decide _); simpl in Hdisjoint; try done; lia.
  - eapply loop_agree_trans.
    + apply (IH1 a a); done.
    + apply (IH2 a b); [|done..].
      intros idx. specialize (Hdisjoint idx).
      by rewrite <-(filter_Permutation _ _ _ Hperm1).
Qed.

(** X7: the order of the chunks does not matter when no two chunks share a
    voxel: for the same (chunk, position) pairs in another order, both runs
    raise or both return, and then they return equal arrays. *)
Theorem reconstruct_array_from_chunks_order (memory : list nat → A)
    chunks chunk_positions chunks' chunk_positions' original_shape :
  length chunks = length chunk_positions →
  length chunks' = length chunk_positions' →
  zip chunks chunk_positions ≡ₚ zip chunks' chunk_positions' →
  disjoint_chunks original_shape (zip chunks chunk_positions) →
  same_outcome
    (reconstruct_array_from_chunks memory chunks chunk_positions original_shape)
    (reconstruct_array_from_chunks memory chunks' chunk_positions' original_shape).
Proof.
  intros Hlen Hlen' Hperm Hdisjoint. unfold reconstruct_array_from_chunks.
  assert (length chunks = length chunks') as Hsame.
  { apply Permutation_length in Hperm. rewrite !length_zip in Hperm. lia. }
  destruct chunks as [|first chunks], chunks' as [|first' chunks'];
    try done.
  cbn [index0 mbind result_bind].
  pose proof (reconstruct_loop_Permutation _ _ Hperm
                (np_empty memory original_shape)
                (np_empty memory original_shape) Hdisjoint eq_refl
                (λ _, eq_refl)) as Hloop.
  unfold loop_agree in Hloop. unfold same_outcome.
  destruct (reconstruct_loop _ _) as [a|], (reconstruct_loop _ _) as [b|];
    try done.
  destruct Hloop as [Hshape Hitems]. cbn [mbind result_bind].
  apply np_squeeze_array_eq; [done|]. auto.
Qed.
End ReconstructMore.

(** ** The chunk grid: counts, tiling and invalid partitions *)

(** The number of indices of a shape. *)
Definition product (shape : list nat) : nat := foldr Nat.mul 1 shape.

Lemma length_ndindex (shape : list nat) : length (ndindex shape) = product shape.
Proof.
  induction shape as [|n shape IH]; [done|]. simpl.
  generalize 0. induction n as [|n IHn]; intros j; [done|].
  simpl. rewrite length_app, length_fmap, IH, IHn. done.
Qed.

Lemma NoDup_ndindex (shape : list nat) : NoDup (ndindex shape).
Proof.
  induction shape as [|n shape IH]; simpl.
  { apply NoDup_singleton. }
  apply NoDup_bind; [| |apply NoDup_seq].
  - intros i1 i2 idx _ _ (idx1 & -> & _)%list_elem_of_fmap
      (idx2 & [= -> _] & _)%list_elem_of_fmap. done.
  - intros i _. apply (NoDup_fmap_2 _), IH.
Qed.

Lemma mapM_Raise {X Y : Type} (f : X → result Y) (l : list X) (e : exception) :
  Forall (λ x, (∃ y, f x = Ok y) ∨ f x = Raise e) l →
  Exists (λ x, f x = Raise e) l →
  mapM f l = Raise e.
Proof.
  induction 1 as [|x l [[y Hx]|Hx] _ IH]; intros Hex.
  - by apply Exists_nil in Hex.
  - apply Exists_cons in Hex as [Hex|Hex]; [congruence|].
    simpl. rewrite Hx. simpl. by rewrite IH.
  - simpl. by rewrite Hx.
Qed.

Lemma mapM_fmap_Ok {X Y : Type} (f : X → result Y) (g : X → Y) (l : list X) :
  Forall (λ x, f x = Ok (g x)) l → mapM f l = Ok (g <$> l).
Proof.
  intros Hall. apply mapM_Ok. induction Hall; constructor; auto.
Qed.

Section PredictMore.
Context {A B : Type}.
Variable strict : bool.
Variable chunk_along_axis : nat → nat.

(** The extent of an axis with a chunk count that is not zero. *)
Definition extent_of (axis : nat) : extent :=
  mk_extent (axis / chunk_along_axis axis)
            (bool_decide (axis mod chunk_along_axis axis = 0)).

(** What the chunking raises on an extent it cannot use. *)
Definition invalid_partition : exception :=
  if strict then ValueError else ZeroDivisionError.

Lemma chunk_extent_nonzero axis :
  chunk_along_axis axis ≠ 0 →
  chunk_extent chunk_along_axis axis = Ok (extent_of axis).
Proof. intros Hc. unfold chunk_extent. by destruct (decide _). Qed.

Lemma blockdims_extent_of axis :
  chunk_along_axis axis ≠ 0 →
  (∃ sizes, blockdims strict axis (extent_of axis) = Ok sizes) ∨
  blockdims strict axis (extent_of axis) = Raise invalid_partition.
Proof.
  intros Hc. unfold blockdims, invalid_partition, extent_of. simpl.
  destruct strict; simpl.
  - destruct (bool_decide_reflect (axis mod chunk_along_axis axis = 0))
      as [Hmod|Hmod]; simpl; [|by right].
    destruct (decide (axis = 0)); [left; by eexists|].
    destruct (decide (axis / chunk_along_axis axis = 0)) as [Hdiv|];
      [|left; by eexists].
    apply Nat.Div0.div_exact in Hmod. rewrite Hdiv in Hmod. lia.
  - destruct (decide (axis = 0)); [left; by eexists|].
    destruct (decide _); [by right|left; by eexists].
Qed.

Lemma blockdims_count_exceeds axis :
  0 < axis < chunk_along_axis axis →
  blockdims strict axis (extent_of axis) = Raise invalid_partition.
Proof.
  intros Haxis. unfold blockdims, invalid_partition, extent_of. simpl.
  rewrite Nat.mod_small, Nat.div_small by lia.
  destruct strict; simpl.
  - by rewrite bool_decide_eq_false_2 by lia.
  - destruct (decide (axis = 0)); [lia|]. by destruct (decide (0 = 0)).
Qed.

(** X10: a chunk count of zero for any axis (the batch axis included) makes
    the prediction fail with [ZeroDivisionError], whatever the engine. *)
Theorem predict_from_array_by_iterator_zero_count
    (engine : list (ndarray A) → list (ndarray B)) (memory : list nat → B)
    (image_array : ndarray A) :
  Exists (λ axis, chunk_along_axis axis = 0) (1 :: shape image_array) →
  predict_from_array_by_iterator strict chunk_along_axis engine memory image_array
  = Raise ZeroDivisionError.
Proof.
  intros Hzero. unfold predict_from_array_by_iterator, chunk_grid.
  change (shape (expand_dims0 image_array)) with (1 :: shape image_array).
  rewrite (mapM_Raise _ _ ZeroDivisionError); [done| |].
  - apply Forall_forall. intros axis _. unfold chunk_extent.
    destruct (decide _); [by right|left; by eexists].
  - eapply Exists_impl; [exact Hzero|]. intros axis Hc. unfold chunk_extent.
    by destruct (decide _).
Qed.

(** X11: a chunk count larger than its axis leaves no usable extent: the
    prediction fails, with [ValueError] where the chunking rejects the
    fractional extent and with [ZeroDivisionError] where it truncates it to
    zero. *)
Theorem predict_from_array_by_iterator_count_exceeds_axis
    (engine : list (ndarray A) → list (ndarray B)) (memory : list nat → B)
    (image_array : ndarray A) :
  Forall (λ axis, chunk_along_axis axis ≠ 0) (1 :: shape image_array) →
  Exists (λ axis, 0 < axis < chunk_along_axis axis) (1 :: shape image_array) →
  predict_from_array_by_iterator strict chunk_along_axis engine memory image_array
  = Raise invalid_partition.
Proof.
  intros Hnonzero Hexceeds. unfold predict_from_array_by_iterator, chunk_grid.
  change (shape (expand_dims0 image_array)) with (1 :: shape image_array).
  rewrite (mapM_fmap_Ok _ extent_of).
  2: { eapply Forall_impl; [exact Hnonzero|]. apply chunk_extent_nonzero. }
  cbn [mbind result_bind].
  assert (zip (1 :: shape image_array) (extent_of <$> 1 :: shape image_array)
          = (λ axis, (axis, extent_of axis)) <$> 1 :: shape image_array) as ->.
  { generalize (1 :: shape image_array). intros l.
    induction l; simpl; by f_equal. }
  rewrite (mapM_Raise _ _ invalid_partition); [done| |].
  - apply Forall_fmap. eapply Forall_impl; [exact Hnonzero|].
    intros axis Hc. by apply blockdims_extent_of.
  - apply Exists_fmap. eapply Exists_impl; [exact Hexceeds|].
    intros axis Haxis. by apply blockdims_count_exceeds.
Qed.

(** X12: with positive axes and chunk counts that divide them, the grid has
    one block per combination of per-axis chunk indices: the locations are
    those indices in row-major order, each once, there are as many blocks as
    the product of the counts, and every block has the extents as its
    shape. *)
Theorem chunk_grid_blocks (image_array : ndarray A) :
  Forall (λ axis, 0 < axis) (shape image_array) →
  Forall (divides_evenly chunk_along_axis) (1 :: shape image_array) →
  let counts := chunk_along_axis <$> 1 :: shape image_array in
  let extents := (λ axis, axis / chunk_along_axis axis) <$> 1 :: shape image_array in
  ∃ blocks,
    chunk_grid strict chunk_along_axis image_array
    = Ok (blocks, ndindex counts, 1 :: shape image_array) ∧
    NoDup (ndindex counts) ∧
    length blocks = product counts ∧
    Forall (λ b, shape b = extents) blocks.
Proof.
  intros Hpos Hdiv counts extents.
  assert (Forall (λ n, 0 < n) (1 :: shape image_array)) as Hpos'
    by (constructor; [lia|done]).
  destruct (divides_evenly_grid chunk_along_axis _ Hpos' Hdiv) as [Hshape Hgrid].
  set (grid := (λ n, (chunk_along_axis n, n / chunk_along_axis n))
                 <$> 1 :: shape image_array) in *.
  assert (grid.*1 = counts) as Hcounts.
  { unfold grid, counts. by rewrite <-list_fmap_compose. }
  assert (grid.*2 = extents) as Hextents.
  { unfold grid, extents. by rewrite <-list_fmap_compose. }
  clearbody grid.
  rewrite (chunk_grid_uniform strict chunk_along_axis image_array grid) by done.
  rewrite Hcounts. eexists. split; [done|].
  split; [apply NoDup_ndindex|].
  split; [by rewrite length_fmap, length_ndindex|].
  apply Forall_fmap, Forall_forall. intros location Hloc%elem_of_ndindex.
  simpl. rewrite <-Hcounts in Hloc. by rewrite block_shape.
Qed.
End PredictMore.

Lemma length_filter_unique {X : Type} (P : X → Prop) `{∀ x, Decision (P x)}
    (l : list X) :
  NoDup l →
  (∀ x y, x ∈ l → y ∈ l → P x → P y → x = y) →
  length (filter P l) ≤ 1.
Proof.
  intros Hnodup Hunique.
  destruct (filter P l) as [|x [|y rest]] eqn:Hfilter; simpl; try lia.
  exfalso.
  assert (NoDup (filter P l)) as Hnodup' by (by apply NoDup_filter).
  assert (x ∈ filter P l ∧ y ∈ filter P l) as [Hx Hy].
  { rewrite Hfilter. split; [by left|right; by left]. }
  apply list_elem_of_filter in Hx as [HPx Hx], Hy as [HPy Hy].
  rewrite Hfilter in Hnodup'.
  apply NoDup_cons in Hnodup' as [Hnotin _]. apply Hnotin.
  rewrite (Hunique x y Hx Hy HPx HPy). by left.
Qed.

Lemma block_region_unique (location location' bds idx : list nat) :
  length location = length bds → length location' = length bds →
  in_region (block_region location bds) idx →
  in_region (block_region location' bds) idx →
  location = location'.
Proof.
  unfold in_region, block_region. revert location location' idx.
  induction bds as [|bd bds IH]; intros [|c location] [|c' location'] idx;
    simpl; try done.
  intros [= Hlen] [= Hlen'].
  intros (i & idx' & Hi & Hidx' & ->)%Forall2_cons_inv_r.
  intros (i' & idx'' & Hi' & Hidx'' & [= <- <-])%Forall2_cons_inv_r.
  simpl in *. f_equal; [nia|by eapply IH].
Qed.

Section TilingFacts.
Context {A : Type}.
Variable strict : bool.
Variable chunk_along_axis : nat → nat.

(** X13: with positive axes and chunk counts that divide them, the chunks
    of the round trip tile the output: every voxel of the output shape lies
    in the destination slices of a chunk, and of one chunk only. *)
Theorem chunk_grid_tiles (V : ndarray A) :
  Forall (λ axis, 0 < axis) (shape V) →
  Forall (divides_evenly chunk_along_axis) (1 :: shape V) →
  ∃ blocks chunk_locations,
    chunk_grid strict chunk_along_axis V
    = Ok (blocks, chunk_locations, 1 :: shape V) ∧
    covers (identity_engine blocks) chunk_locations (1 :: shape V) ∧
    disjoint_chunks (1 :: shape V) (zip (identity_engine blocks) chunk_locations).
Proof.
  intros Hpos Hdiv.
  assert (Forall (λ n, 0 < n) (1 :: shape V)) as Hpos'
    by (constructor; [lia|done]).
  destruct (divides_evenly_grid chunk_along_axis _ Hpos' Hdiv) as [Hshape Hgrid].
  set (grid := (λ n, (chunk_along_axis n, n / chunk_along_axis n))
                 <$> 1 :: shape V) in *.
  assert (∃ grid', grid = (1, 1) :: grid') as Hhead.
  { apply Forall_cons in Hdiv as [[Hc Hmod] _].
    assert (chunk_along_axis 1 = 1) as Hone.
    { destruct (chunk_along_axis 1) as [|[|c]]; [lia|done|].
      rewrite Nat.mod_small in Hmod; lia. }
    unfold grid. rewrite fmap_cons, Hone. by eexists. }
  clearbody grid.
  assert (Forall (λ kb, 0 < kb.2) grid) as Hbd.
  { eapply Forall_impl; [exact Hgrid|]. simpl. tauto. }
  set (T := expand_dims0 V).
  assert (shape T = grid_shape grid) as HT by done.
  rewrite (chunk_grid_uniform strict chunk_along_axis V grid) by done.
  eexists _, _. split; [done|].
  unfold identity_engine, covers. rewrite <-list_fmap_compose, zip_fmap_self.
  change (expand_dims0 V) with T.
  change (1 :: shape V) with (shape T).
  assert (∀ location idx,
    in_bounds grid.*1 location →
    in_region (chunk_region (shape T)
                 (drop_axis0 (block T (grid_blocks grid) location)) location) idx
    ↔ in_region (block_region location grid.*2) idx) as Hregion.
  { intros location idx Hloc.
    by destruct (chunk_of_block T grid location HT Hhead Hloc) as [-> _]. }
  split.
  - intros idx Hidx. rewrite HT in Hidx.
    destruct (grid_covers grid idx Hbd Hidx) as [Hloc Hin].
    apply Exists_exists. eexists (_, zip_with Nat.div idx grid.*2). split.
    + apply list_elem_of_fmap. eexists. split; [done|]. by apply elem_of_ndindex.
    + cbn [fst snd]. unfold compose. by apply Hregion.
  - intros idx. apply length_filter_unique.
    + apply NoDup_fmap_2; [|apply NoDup_ndindex].
      intros l1 l2 Heq. by apply (f_equal snd) in Heq.
    + intros [chunk1 location1] [chunk2 location2]
        (l1 & Heq1 & Hl1%elem_of_ndindex)%list_elem_of_fmap
        (l2 & Heq2 & Hl2%elem_of_ndindex)%list_elem_of_fmap.
      rewrite Heq1, Heq2.
      cbn [fst snd]. unfold compose. rewrite !Hregion by done.
      intros Hin1 Hin2.
      assert (l1 = l2) as ->; [|done].
      apply (block_region_unique l1 l2 grid.*2 idx); try done.
      * apply Forall2_length in Hl1. by rewrite Hl1, !length_fmap.
      * apply Forall2_length in Hl2. by rewrite Hl2, !length_fmap.
Qed.
End TilingFacts.

(** ** The merge: model construction and the single model *)

Lemma mapM_Raise_at {X Y : Type} (f : X → result Y) (before after : list X)
    (x : X) (e : exception) :
  Forall (λ i, ∃ y, f i = Ok y) before →
  f x = Raise e →
  mapM f (before ++ x :: after) = Raise e.
Proof.
  intros Hbefore Hx. induction Hbefore as [|i before [y Hi] _ IH]; simpl.
  - by rewrite Hx.
  - by rewrite Hi, IH.
Qed.

Section CombineLabelsMore.
Variable Model : string → result model.

(** X14: every model is constructed before any file is looked up: when the
    construction of a requested model raises, the merge raises that exception
    whatever the segmentation directory holds. *)
Theorem create_multi_model_label_segmentation_model_error
    (fs : filesystem) directory before id after e :
  Forall (λ i, ∃ m, Model i = Ok m) before →
  Model id = Raise e →
  create_multi_model_label_segmentation Model fs directory
    (before ++ id :: after) = Raise e.
Proof.
  intros Hbefore Hid. unfold create_multi_model_label_segmentation.
  by rewrite (mapM_Raise_at Model before after id e).
Qed.

(** X15: a merge of a single model returns the segmentation found for it and
    its index map as they are. *)
Theorem create_multi_model_label_segmentation_single
    (fs : filesystem) directory id fs' image dict :
  create_multi_model_label_segmentation Model fs directory [id]
  = Ok (fs', (image, dict)) →
  ∃ base_model path,
    Model id = Ok base_model ∧
    index0 (get_files fs directory (multilabel_prefix base_model) nifti_suffixes)
    = Ok path ∧
    fs !! path = Some (ImageFile image) ∧
    dict = organ_indices base_model.
Proof.
  intros (base & models & path & base_image & Hmodels & Hpath & Hread & Hloop & _)
    %create_multi_model_label_segmentation_Ok.
  apply mapM_Ok in Hmodels.
  apply Forall2_cons_inv_l in Hmodels as (m & ms & Hm & Hms & [= -> ->]).
  apply Forall2_nil_inv_l in Hms as ->. simpl in Hloop. injection Hloop as <- <-.
  exists m, path. by rewrite <-ReadImage_Ok.
Qed.
End CombineLabelsMore.
